(** * A circular doubly-linked playlist: models/node.py and models/playlist.py

    The Python objects live in an object store indexed by allocation order;
    a reference is the index of the object, so reference identity (Python's
    default [==] and [!=] on [NodoCancion], which defines neither [__eq__]
    nor [__ne__]) is equality of indices.  Every method of
    [ListaReproduccion] is a computation in a state-and-exception monad over
    that store. *)

From stdpp Require Import base numbers list strings pretty.
From Stdlib Require Import ZArith Lia.

Local Open Scope Z_scope.

(** ** Objects *)

(** A reference to a [NodoCancion] object. *)
Abbreviation ref := nat (only parsing).

(** models/node.py, class NodoCancion.  A link attribute, like any Python
    attribute, may hold [None]. *)
Record NodoCancion : Type := mkNodo {
  titulo : string;
  artista : string;
  duracion : Z;
  ruta : string;
  anterior : option ref;
  siguiente : option ref
}.

Definition con_anterior (v : option ref) (n : NodoCancion) : NodoCancion :=
  mkNodo (titulo n) (artista n) (duracion n) (ruta n) v (siguiente n).

Definition con_siguiente (v : option ref) (n : NodoCancion) : NodoCancion :=
  mkNodo (titulo n) (artista n) (duracion n) (ruta n) (anterior n) v.

(** The store together with the attributes of the one [ListaReproduccion]
    under study ([None] is Python's [None]). *)
Record estado : Type := mkEstado {
  objetos : list NodoCancion;
  actual : option ref;
  primero : option ref;
  tamanio : Z
}.

(** ** The monad *)

Inductive fallo : Type :=
| AttributeError      (* attribute access on None *)
| ReferenciaInvalida  (* a reference outside the store; no execution makes one *)
| SinCombustible.     (* the loop budget of the model ran out *)

Inductive resultado (A : Type) : Type :=
| Ok (a : A)
| Falla (f : fallo).
Arguments Ok {A} a.
Arguments Falla {A} f.

Definition M (A : Type) : Type := estado → resultado (A * estado).

Definition ret {A} (a : A) : M A := λ s, Ok (a, s).

Definition bind {A B} (m : M A) (k : A → M B) : M B :=
  λ s, match m s with
       | Ok (a, s') => k a s'
       | Falla f => Falla f
       end.

Definition fallar {A} (f : fallo) : M A := λ _, Falla f.

Declare Scope m_scope.
Delimit Scope m_scope with M.
Notation "'let!' x ':=' m 'in' k" := (bind m (λ x, k))
  (at level 10, x binder, m at level 200, k at level 200) : m_scope.
Notation "m '>>' k" := (bind m (λ _, k))
  (at level 100, right associativity) : m_scope.
Local Open Scope m_scope.

(** Attribute reads and writes on [self]. *)
Definition leer_actual : M (option ref) := λ s, Ok (actual s, s).
Definition leer_primero : M (option ref) := λ s, Ok (primero s, s).
Definition leer_tamanio : M Z := λ s, Ok (tamanio s, s).

Definition poner_actual (v : option ref) : M unit :=
  λ s, Ok (tt, mkEstado (objetos s) v (primero s) (tamanio s)).
Definition poner_primero (v : option ref) : M unit :=
  λ s, Ok (tt, mkEstado (objetos s) (actual s) v (tamanio s)).
Definition poner_tamanio (v : Z) : M unit :=
  λ s, Ok (tt, mkEstado (objetos s) (actual s) (primero s) v).

(** Attribute reads and writes on the value [x] of an expression:
    [x.anterior], [x.siguiente], [x.anterior = v], [x.siguiente = v].
    They raise [AttributeError] when [x] is [None]. *)
Definition nodo_de (x : option ref) : M NodoCancion :=
  λ s, match x with
       | None => Falla AttributeError
       | Some r => match objetos s !! r with
                   | Some n => Ok (n, s)
                   | None => Falla ReferenciaInvalida
                   end
       end.

Definition leer_anterior (x : option ref) : M (option ref) :=
  let! n := nodo_de x in ret (anterior n).
Definition leer_siguiente (x : option ref) : M (option ref) :=
  let! n := nodo_de x in ret (siguiente n).

Definition modificar (f : NodoCancion → NodoCancion) (x : option ref) : M unit :=
  let! _ := nodo_de x in
  λ s, match x with
       | None => Falla AttributeError
       | Some r => Ok (tt, mkEstado (alter f r (objetos s))
                                    (actual s) (primero s) (tamanio s))
       end.

Definition poner_anterior (x v : option ref) : M unit :=
  modificar (con_anterior v) x.
Definition poner_siguiente (x v : option ref) : M unit :=
  modificar (con_siguiente v) x.

(** ** models/node.py *)

(** [NodoCancion.__init__]: a fresh object whose two links are itself. *)
Definition NodoCancion__init__ (t a : string) (d : Z) (r : string) : M ref :=
  λ s, let yo := length (objetos s) in
       Ok (yo, mkEstado (objetos s ++ [mkNodo t a d r (Some yo) (Some yo)])
                        (actual s) (primero s) (tamanio s)).

(** ** models/playlist.py *)

(** [ListaReproduccion.__init__], with no node allocated yet. *)
Definition ListaReproduccion__init__ : estado := mkEstado [] None None 0.

Definition esta_vacia : M bool :=
  let! t := leer_tamanio in ret (bool_decide (t = 0)).

Definition agregar_cancion (t a : string) (d : Z) (r : string) : M ref :=
  let! nuevo_nodo := NodoCancion__init__ t a d r in
  let! vacia := esta_vacia in
  (if (vacia : bool) then
     poner_actual (Some nuevo_nodo) >>
     poner_primero (Some nuevo_nodo)
   else
     let! p := leer_primero in
     let! ultimo_nodo := leer_anterior p in
     let! p := leer_primero in
     poner_siguiente (Some nuevo_nodo) p >>
     poner_anterior (Some nuevo_nodo) ultimo_nodo >>
     poner_siguiente ultimo_nodo (Some nuevo_nodo) >>
     let! p := leer_primero in
     poner_anterior p (Some nuevo_nodo)) >>
  let! n := leer_tamanio in
  poner_tamanio (n + 1) >>
  ret nuevo_nodo.

Definition eliminar_cancion_actual : M (option ref) :=
  let! vacia := esta_vacia in
  if (vacia : bool) then ret None
  else
    let! nodo_eliminado := leer_actual in
    let! n := leer_tamanio in
    (if bool_decide (n = 1) then
       poner_actual None >>
       poner_primero None
     else
       let! a := leer_actual in
       let! p := leer_primero in
       (if bool_decide (a = p) then
          let! p := leer_primero in
          let! sp := leer_siguiente p in
          poner_primero sp
        else ret tt) >>
       let! a := leer_actual in
       let! v := leer_siguiente a in
       let! a := leer_actual in
       let! x := leer_anterior a in
       poner_siguiente x v >>
       let! a := leer_actual in
       let! v := leer_anterior a in
       let! a := leer_actual in
       let! x := leer_siguiente a in
       poner_anterior x v >>
       let! a := leer_actual in
       let! sig := leer_siguiente a in
       poner_actual sig) >>
    let! n := leer_tamanio in
    poner_tamanio (n - 1) >>
    ret nodo_eliminado.

Definition siguiente_cancion : M (option ref) :=
  let! vacia := esta_vacia in
  if (vacia : bool) then ret None
  else
    let! a := leer_actual in
    let! sig := leer_siguiente a in
    poner_actual sig >>
    leer_actual.

Definition cancion_anterior : M (option ref) :=
  let! vacia := esta_vacia in
  if (vacia : bool) then ret None
  else
    let! a := leer_actual in
    let! ant := leer_anterior a in
    poner_actual ant >>
    leer_actual.

Definition obtener_cancion_actual : M (option ref) := leer_actual.

(** The [while nodo != self.primero] loop; one unit of [fuel] pays for one
    evaluation of the loop test. *)
Fixpoint mientras (fuel : nat) (nodo : option ref) (canciones : list (option ref))
  : M (list (option ref)) :=
  match fuel with
  | O => fallar SinCombustible
  | S fuel' =>
      let! p := leer_primero in
      if bool_decide (nodo ≠ p) then
        let canciones := canciones ++ [nodo] in
        let! nodo := leer_siguiente nodo in
        mientras fuel' nodo canciones
      else ret canciones
  end.

Definition obtener_todas_las_canciones (fuel : nat) : M (list (option ref)) :=
  let! vacia := esta_vacia in
  if (vacia : bool) then ret []
  else
    let canciones := [] in
    let! nodo := leer_primero in
    let canciones := canciones ++ [nodo] in
    let! nodo := leer_siguiente nodo in
    mientras fuel nodo canciones.

Definition __len__ : M Z := leer_tamanio.

(** Three tracks A, B, C appended in that order. *)
Definition tres : M (list ref) :=
  let! a := agregar_cancion "A" "x" 125 "a.mp3" in
  let! b := agregar_cancion "B" "x" 200 "b.mp3" in
  let! c := agregar_cancion "C" "x" 61 "c.mp3" in
  ret [a; b; c].

(** ** Reading the store *)

(** The [siguiente] and [anterior] attributes of the object at [a]. *)
Definition sig (h : list NodoCancion) (a : ref) : option ref :=
  h !! a ≫= siguiente.
Definition ant (h : list NodoCancion) (a : ref) : option ref :=
  h !! a ≫= anterior.

(** The track data of a node: everything but its two links. *)
Definition datos (n : NodoCancion) : string * string * Z * string :=
  (titulo n, artista n, duracion n, ruta n).

(** [n] applications of [f] along [Some] results. *)
Fixpoint iterar (f : ref → option ref) (n : nat) (a : ref) : option ref :=
  match n with
  | O => Some a
  | S n' => f a ≫= iterar f n'
  end.

(** ** The ring as a list

    [anillo s l k]: the nodes of the playlist in state [s] are exactly the
    references of [l], in chronological order from [primero], linked
    cyclically in both directions, and the cursor is the [k]-th of them. *)

(** The positions after and before [i] on a ring of [n] positions. *)
Definition nxt (n i : nat) : nat := if decide (S i = n) then O else S i.
Definition prv (n i : nat) : nat := if decide (i = O) then pred n else pred i.

(** The position reached from [i] after [j] moves by [f]. *)
Fixpoint saltar (f : nat → nat) (j i : nat) : nat :=
  match j with
  | O => i
  | S j' => saltar f j' (f i)
  end.

Record anillo (s : estado) (l : list ref) (k : nat) : Prop := mkAnillo {
  an_tamanio : tamanio s = Z.of_nat (length l);
  an_nodup : NoDup l;
  an_primero : primero s = l !! O;
  an_actual : actual s = l !! k;
  an_cursor : (k < length l)%nat ∨ (l = [] ∧ k = O);
  an_sig : ∀ i a, l !! i = Some a → sig (objetos s) a = l !! nxt (length l) i;
  an_ant : ∀ i a, l !! i = Some a → ant (objetos s) a = l !! prv (length l) i
}.

(** A well-formed playlist: its nodes form a ring.  Every state the methods
    lead to from the empty playlist is one ([alcanzable_bien_formada]). *)
Definition bien_formada (s : estado) : Prop := ∃ l k, anillo s l k.

(** A node is in the ring when following [siguiente] from [primero] reaches it. *)
Definition en_anillo (s : estado) (a : ref) : Prop :=
  ∃ p j, primero s = Some p ∧ iterar (sig (objetos s)) j p = Some a.

(** ** Calls and reachable states *)

Inductive llamada : Type :=
| Agregar (t a : string) (d : Z) (r : string)
| Eliminar
| Siguiente
| Anterior
| Actual
| Contar
| Todas (fuel : nat).

Inductive valor : Type :=
| VNodo (r : option ref)
| VEntero (z : Z)
| VLista (l : list (option ref)).

Definition ejecutar (c : llamada) : M valor :=
  match c with
  | Agregar t a d r => let! n := agregar_cancion t a d r in ret (VNodo (Some n))
  | Eliminar => let! n := eliminar_cancion_actual in ret (VNodo n)
  | Siguiente => let! n := siguiente_cancion in ret (VNodo n)
  | Anterior => let! n := cancion_anterior in ret (VNodo n)
  | Actual => let! n := obtener_cancion_actual in ret (VNodo n)
  | Contar => let! z := __len__ in ret (VEntero z)
  | Todas fuel => let! l := obtener_todas_las_canciones fuel in ret (VLista l)
  end.

(** The states some sequence of calls leads to from the empty playlist. *)
Inductive alcanzable : estado → Prop :=
| alc_vacia : alcanzable ListaReproduccion__init__
| alc_paso s c v s' :
    alcanzable s → ejecutar c s = Ok (v, s') → alcanzable s'.

(** [n] calls of the same method, keeping the last state. *)
Fixpoint repetir {A} (m : M A) (n : nat) : M unit :=
  match n with
  | O => ret tt
  | S n' => m >> repetir m n'
  end.

(** One append per track, collecting the nodes the calls return. *)
Fixpoint agregar_todas (cs : list (string * string * Z * string)) : M (list ref) :=
  match cs with
  | [] => ret []
  | (t, a, d, r) :: cs' =>
      let! n := agregar_cancion t a d r in
      let! ns := agregar_todas cs' in
      ret (n :: ns)
  end.

(** The store after [agregar_cancion] on a playlist whose first node is
    [p] and whose last node is [u]. *)
Definition enlazar_ultimo (t a : string) (d : Z) (r : string) (p u : ref)
    (h : list NodoCancion) : list NodoCancion :=
  let yo := length h in
  alter (con_anterior (Some yo)) p
    (alter (con_siguiente (Some yo)) u
       (alter (con_anterior (Some u)) yo
          (alter (con_siguiente (Some p)) yo
             (h ++ [mkNodo t a d r (Some yo) (Some yo)])))).

(** The store after unlinking a node whose neighbours are [pv] and [nx]. *)
Definition desenlazar (pv nx : ref) (h : list NodoCancion) : list NodoCancion :=
  alter (con_anterior (Some pv)) nx (alter (con_siguiente (Some nx)) pv h).

(** The same state with another cursor. *)
Definition con_actual (c : option ref) (s : estado) : estado :=
  mkEstado (objetos s) c (primero s) (tamanio s).

(** ** Concrete playlists *)

Definition estado_tras {A} (m : M A) : estado :=
  match m ListaReproduccion__init__ with
  | Ok (_, s) => s
  | Falla _ => ListaReproduccion__init__
  end.

(** A, B and C appended in that order; the cursor is on A. *)
Definition lista_abc : estado := Eval vm_compute in estado_tras tres.

(** One track appended and removed again: empty, with one object left in
    the store. *)
Definition lista_vaciada : estado :=
  Eval vm_compute in
  estado_tras (agregar_cancion "Z" "x" 1 "z.mp3" >> eliminar_cancion_actual).

(** Two appends of the very same track. *)
Definition lista_gemelas : estado :=
  Eval vm_compute in
  estado_tras (agregar_cancion "T" "x" 7 "t.mp3" >> agregar_cancion "T" "x" 7 "t.mp3").

(** ** models/node.py, [__str__], and the duration column of the table *)

(** Python's [f"{n:02d}"]: the decimal digits of [n], with a zero in front
    when they are fewer than two characters ([pretty] is the decimal
    notation of an integer, with a minus sign when negative, as [str]). *)
Definition dos_digitos (n : Z) : string :=
  let s := pretty n in
  if (String.length s <? 2)%nat then "0" +:+ s else s.

(** [f"{minutos}:{segundos:02d}"] with [minutos = duracion // 60] and
    [segundos = duracion % 60]; [//] rounds down and [%] takes the sign of
    the divisor, as [Z.div] and [Z.modulo] do. *)
Definition formato_duracion (duracion : Z) : string :=
  let minutos := duracion / 60 in
  let segundos := duracion `mod` 60 in
  pretty minutos +:+ ":" +:+ dos_digitos segundos.

(** [NodoCancion.__str__]. *)
Definition NodoCancion__str__ (self : NodoCancion) : string :=
  let duracion_str := formato_duracion (duracion self) in
  titulo self +:+ " - " +:+ artista self +:+ " (" +:+ duracion_str +:+ ")".

(** ** ui/playlist_widget.py

    The part of [PlaylistModel] and [PlaylistWidget] that works on the
    playlist.  The attributes kept are the playlist, the two attributes of
    the table model and the signals of the widget, as the list of those
    emitted so far.  Notifications to the Qt view ([beginResetModel],
    [endResetModel], [dataChanged]) carry no state of their own and are
    left out. *)

Inductive senal : Type :=
| song_selected (n : option ref)
| song_added (n : option ref)
| song_removed (n : option ref).

Record PlaylistModel : Type := mkModelo {
  canciones : list (option ref);
  cancion_actual : option ref
}.

Record PlaylistWidget : Type := mkWidget {
  lista_reproduccion : estado;
  playlist_model : PlaylistModel;
  emitidas : list senal
}.

Definition W (A : Type) : Type := PlaylistWidget → resultado (A * PlaylistWidget).

Definition retW {A} (a : A) : W A := λ w, Ok (a, w).

Definition bindW {A B} (m : W A) (k : A → W B) : W B :=
  λ w, match m w with
       | Ok (a, w') => k a w'
       | Falla f => Falla f
       end.

Declare Scope w_scope.
Delimit Scope w_scope with W.
Notation "'let!' x ':=' m 'in' k" := (bindW m (λ x, k))
  (at level 10, x binder, m at level 200, k at level 200) : w_scope.
Notation "m '>>' k" := (bindW m (λ _, k))
  (at level 100, right associativity) : w_scope.

(** A method call on [self.lista_reproduccion]. *)
Definition en_lista {A} (m : M A) : W A :=
  λ w, match m (lista_reproduccion w) with
       | Ok (a, s') => Ok (a, mkWidget s' (playlist_model w) (emitidas w))
       | Falla f => Falla f
       end.

(** [signal.emit(n)]. *)
Definition emitir (x : senal) : W unit :=
  λ w, Ok (tt, mkWidget (lista_reproduccion w) (playlist_model w) (emitidas w ++ [x])).

(** [PlaylistModel.update_canciones], [set_cancion_actual] and [rowCount],
    called on [self.playlist_model]. *)
Definition update_canciones (cs : list (option ref)) : W unit :=
  λ w, Ok (tt, mkWidget (lista_reproduccion w)
                        (mkModelo cs (cancion_actual (playlist_model w)))
                        (emitidas w)).

Definition set_cancion_actual (cancion : option ref) : W unit :=
  λ w, Ok (tt, mkWidget (lista_reproduccion w)
                        (mkModelo (canciones (playlist_model w)) cancion)
                        (emitidas w)).

Definition rowCount : W Z :=
  λ w, Ok (Z.of_nat (length (canciones (playlist_model w))), w).

(** The loop [while self.lista_reproduccion.obtener_cancion_actual() !=
    objetivo: self.lista_reproduccion.siguiente_cancion()]; one unit of
    [fuel] pays for one evaluation of the loop test. *)
Fixpoint avanzar_hasta (fuel : nat) (objetivo : option ref) : M unit :=
  match fuel with
  | O => fallar SinCombustible
  | S fuel' =>
      (let! a := obtener_cancion_actual in
       if bool_decide (a ≠ objetivo) then
         siguiente_cancion >> avanzar_hasta fuel' objetivo
       else ret tt)%M
  end.

Local Open Scope w_scope.

(** [PlaylistWidget._update_view]; [fuel] is the budget of each loop. *)
Definition _update_view (fuel : nat) : W unit :=
  let! cs := en_lista (obtener_todas_las_canciones fuel) in
  update_canciones cs >>
  let! actual_ := en_lista obtener_cancion_actual in
  match actual_ with
  | Some _ => set_cancion_actual actual_
  | None => retW tt
  end.

(** [PlaylistWidget._on_remove_clicked]; [indexes] are the rows of
    [self.table_view.selectedIndexes()]. *)
Definition _on_remove_clicked (fuel : nat) (indexes : list nat) : W unit :=
  match indexes with
  | [] => retW tt
  | row :: _ =>
      let! vacia := en_lista esta_vacia in
      if (vacia : bool) then retW tt
      else
        let! cs := en_lista (obtener_todas_las_canciones fuel) in
        (if bool_decide (row < length cs)%nat then
           let nodo_a_eliminar := default None (cs !! row) in
           let! nodo_actual_temp := en_lista obtener_cancion_actual in
           let! a := en_lista obtener_cancion_actual in
           if bool_decide (nodo_a_eliminar = a) then
             let! nodo_eliminado := en_lista eliminar_cancion_actual in
             match nodo_eliminado with
             | Some _ => emitir (song_removed nodo_eliminado)
             | None => retW tt
             end
           else
             en_lista (avanzar_hasta fuel nodo_a_eliminar) >>
             let! nodo_eliminado := en_lista eliminar_cancion_actual in
             let! vacia := en_lista esta_vacia in
             (if negb vacia && bool_decide (nodo_actual_temp ≠ nodo_eliminado) then
                en_lista (avanzar_hasta fuel nodo_actual_temp)
              else retW tt) >>
             match nodo_eliminado with
             | Some _ => emitir (song_removed nodo_eliminado)
             | None => retW tt
             end
         else retW tt) >>
        _update_view fuel
  end.

(** [PlaylistWidget._on_table_double_clicked]; [row] is [index.row()]. *)
Definition _on_table_double_clicked (fuel : nat) (row : nat) : W unit :=
  let! vacia := en_lista esta_vacia in
  if (vacia : bool) then retW tt
  else
    let! cs := en_lista (obtener_todas_las_canciones fuel) in
    if bool_decide (row < length cs)%nat then
      let nodo_seleccionado := default None (cs !! row) in
      let! a := en_lista obtener_cancion_actual in
      if bool_decide (nodo_seleccionado ≠ a) then
        let! nodo_actual := en_lista obtener_cancion_actual in
        match nodo_actual with
        | None => retW tt
        | Some _ =>
            en_lista (avanzar_hasta fuel nodo_seleccionado) >>
            set_cancion_actual nodo_seleccionado >>
            let! a := en_lista obtener_cancion_actual in
            emitir (song_selected a)
        end
      else
        let! a := en_lista obtener_cancion_actual in
        emitir (song_selected a)
    else retW tt.

(** [PlaylistWidget.get_current_song], [next_song], [cancion_anterior]. *)
Definition get_current_song : W (option ref) := en_lista obtener_cancion_actual.



(** [PlaylistWidget.__init__]: an empty playlist and an empty table. *)
Definition PlaylistWidget__init__ : PlaylistWidget :=
  mkWidget ListaReproduccion__init__ (mkModelo [] None) [].

(** [PlaylistModel.data].  The roles of Qt the method tests for, the other
    roles together, and the values it returns: a text, an alignment (right
    or left, vertically centred in both cases), a font of a given point
    size that is bold or not, a colour with or without an alpha, or
    [None]. *)
Inductive rol : Type :=
| DisplayRole | TextAlignmentRole | FontRole | BackgroundRole | ForegroundRole
| OtroRol.

Inductive dato : Type :=
| DNone
| DTexto (t : string)
| DAlineacion (derecha : bool)
| DFuente (puntos : Z) (negrita : bool)
| DColor (r g b : Z) (alfa : option Z).

Global Instance rol_eq_dec : EqDecision rol.
Proof. solve_decision. Defined.

(** [index] is given by [index.isValid()], [index.row()] and
    [index.column()]; the attributes of a song are read in the store [h]. *)
Definition data (h : list NodoCancion) (self : PlaylistModel)
    (valido : bool) (row column : Z) (role : rol) : resultado dato :=
  if negb valido || negb (bool_decide (0 ≤ row < Z.of_nat (length (canciones self))))
  then Ok DNone
  else
    let cancion := default None (canciones self !! Z.to_nat row) in
    let es_cancion_actual :=
      bool_decide (cancion_actual self ≠ None) &&
      bool_decide (cancion = cancion_actual self) in
    let atributo (f : NodoCancion → string) : resultado dato :=
      match cancion with
      | None => Falla AttributeError
      | Some r =>
          match h !! r with
          | None => Falla ReferenciaInvalida
          | Some n => Ok (DTexto (f n))
          end
      end in
    if bool_decide (role = DisplayRole) then
      if bool_decide (column = 0) then atributo titulo
      else if bool_decide (column = 1) then atributo artista
      else if bool_decide (column = 2)
           then atributo (λ n, formato_duracion (duracion n))
      else Ok DNone
    else if bool_decide (role = TextAlignmentRole) then
      if bool_decide (column = 2) then Ok (DAlineacion true)
      else Ok (DAlineacion false)
    else if bool_decide (role = FontRole) then
      Ok (DFuente 10 es_cancion_actual)
    else if bool_decide (role = BackgroundRole) && es_cancion_actual then
      Ok (DColor 42 130 218 (Some 100))
    else if bool_decide (role = ForegroundRole) && es_cancion_actual then
      Ok (DColor 255 255 255 None)
    else Ok DNone.

(** The widget showing A, B and C, with the cursor and the highlight on A. *)
Definition widget_abc : PlaylistWidget :=
  mkWidget lista_abc (mkModelo [Some 0; Some 1; Some 2]%nat (Some 0%nat)) [].

Local Close Scope w_scope.

(** * Properties *)

Section Almacen.
Implicit Types (h : list NodoCancion) (a b : ref) (v : option ref).

Lemma sig_alter_sig h a v :
  (a < length h)%nat → sig (alter (con_siguiente v) a h) a = v.
Proof.
  intros Ha. unfold sig. rewrite list_lookup_alter_eq.
  destruct (lookup_lt_is_Some_2 h a Ha) as [n ->]. reflexivity.
Qed.

Lemma ant_alter_ant h a v :
  (a < length h)%nat → ant (alter (con_anterior v) a h) a = v.
Proof.
  intros Ha. unfold ant. rewrite list_lookup_alter_eq.
  destruct (lookup_lt_is_Some_2 h a Ha) as [n ->]. reflexivity.
Qed.

Lemma sig_alter_ne h (f : NodoCancion → NodoCancion) a b :
  a ≠ b → sig (alter f a h) b = sig h b.
Proof. intros. unfold sig. by rewrite list_lookup_alter_ne. Qed.

Lemma ant_alter_ne h (f : NodoCancion → NodoCancion) a b :
  a ≠ b → ant (alter f a h) b = ant h b.
Proof. intros. unfold ant. by rewrite list_lookup_alter_ne. Qed.

Lemma sig_alter_ant h a b v : sig (alter (con_anterior v) a h) b = sig h b.
Proof.
  destruct (decide (a = b)) as [->|]; [|by apply sig_alter_ne].
  unfold sig. rewrite list_lookup_alter_eq. unfold lookup. destruct (list_lookup b h); reflexivity.
Qed.

Lemma ant_alter_sig h a b v : ant (alter (con_siguiente v) a h) b = ant h b.
Proof.
  destruct (decide (a = b)) as [->|]; [|by apply ant_alter_ne].
  unfold ant. rewrite list_lookup_alter_eq. unfold lookup. destruct (list_lookup b h); reflexivity.
Qed.

Lemma sig_app_l h h' a : (a < length h)%nat → sig (h ++ h') a = sig h a.
Proof. intros. unfold sig. by rewrite lookup_app_l. Qed.

Lemma ant_app_l h h' a : (a < length h)%nat → ant (h ++ h') a = ant h a.
Proof. intros. unfold ant. by rewrite lookup_app_l. Qed.

Lemma sig_nuevo h n : sig (h ++ [n]) (length h) = siguiente n.
Proof. unfold sig. by rewrite list_lookup_middle. Qed.

Lemma ant_nuevo h n : ant (h ++ [n]) (length h) = anterior n.
Proof. unfold ant. by rewrite list_lookup_middle. Qed.

Lemma sig_Some_lt h a b : sig h a = Some b → (a < length h)%nat.
Proof.
  unfold sig. intros H. destruct (h !! a) eqn:E; [|done].
  by eapply lookup_lt_Some.
Qed.

Lemma ant_Some_lt h a b : ant h a = Some b → (a < length h)%nat.
Proof.
  unfold ant. intros H. destruct (h !! a) eqn:E; [|done].
  by eapply lookup_lt_Some.
Qed.

(** Link updates leave the track data of every object alone. *)
Lemma datos_alter_sig h a b v :
  datos <$> alter (con_siguiente v) a h !! b = datos <$> h !! b.
Proof.
  destruct (decide (a = b)) as [->|]; [|by rewrite list_lookup_alter_ne].
  rewrite list_lookup_alter_eq. unfold lookup. destruct (list_lookup b h); reflexivity.
Qed.

Lemma datos_alter_ant h a b v :
  datos <$> alter (con_anterior v) a h !! b = datos <$> h !! b.
Proof.
  destruct (decide (a = b)) as [->|]; [|by rewrite list_lookup_alter_ne].
  rewrite list_lookup_alter_eq. unfold lookup. destruct (list_lookup b h); reflexivity.
Qed.
End Almacen.

(** ** Running the primitives *)

Section Primitivas.
Implicit Types (s : estado) (a : ref).

Lemma bind_ok {A B} (m : M A) (k : A → M B) s x s' :
  m s = Ok (x, s') → bind m k s = k x s'.
Proof. unfold bind. by intros ->. Qed.

Lemma leer_siguiente_ok s a :
  (a < length (objetos s))%nat →
  leer_siguiente (Some a) s = Ok (sig (objetos s) a, s).
Proof.
  intros Ha. destruct (lookup_lt_is_Some_2 _ _ Ha) as [n Hn].
  unfold leer_siguiente, bind, nodo_de, sig. by rewrite Hn.
Qed.

Lemma leer_anterior_ok s a :
  (a < length (objetos s))%nat →
  leer_anterior (Some a) s = Ok (ant (objetos s) a, s).
Proof.
  intros Ha. destruct (lookup_lt_is_Some_2 _ _ Ha) as [n Hn].
  unfold leer_anterior, bind, nodo_de, ant. by rewrite Hn.
Qed.

Lemma modificar_ok f s a :
  (a < length (objetos s))%nat →
  modificar f (Some a) s =
    Ok (tt, mkEstado (alter f a (objetos s)) (actual s) (primero s) (tamanio s)).
Proof.
  intros Ha. destruct (lookup_lt_is_Some_2 _ _ Ha) as [n Hn].
  unfold modificar, bind, nodo_de. by rewrite Hn.
Qed.

Lemma esta_vacia_ok s : esta_vacia s = Ok (bool_decide (tamanio s = 0), s).
Proof. reflexivity. Qed.
End Primitivas.

(** One step of a computation: a primitive that succeeds. *)
Ltac longitudes :=
  cbn [objetos actual primero tamanio];
  rewrite ?length_alter, ?length_app; cbn [length]; lia.

Ltac paso :=
  first
    [ rewrite (bind_ok esta_vacia _ _ _ _ (esta_vacia_ok _))
    | erewrite (bind_ok leer_actual) by reflexivity
    | erewrite (bind_ok leer_primero) by reflexivity
    | erewrite (bind_ok leer_tamanio) by reflexivity
    | erewrite (bind_ok (poner_actual _)) by reflexivity
    | erewrite (bind_ok (poner_primero _)) by reflexivity
    | erewrite (bind_ok (poner_tamanio _)) by reflexivity
    | erewrite (bind_ok (NodoCancion__init__ _ _ _ _)) by reflexivity
    | erewrite (bind_ok (leer_siguiente (Some _))) by (apply leer_siguiente_ok; longitudes)
    | erewrite (bind_ok (leer_anterior (Some _))) by (apply leer_anterior_ok; longitudes)
    | erewrite (bind_ok (poner_siguiente (Some _) _)) by (apply modificar_ok; longitudes)
    | erewrite (bind_ok (poner_anterior (Some _) _)) by (apply modificar_ok; longitudes) ];
  cbn [objetos actual primero tamanio].

Section Formas.
Implicit Types (s : estado) (p u c : ref) (t a r : string) (d : Z).

(** [agregar_cancion] on an empty playlist. *)
Lemma agregar_vacia t a d r s :
  tamanio s = 0 →
  agregar_cancion t a d r s =
    let yo := length (objetos s) in
    Ok (yo, mkEstado (objetos s ++ [mkNodo t a d r (Some yo) (Some yo)])
                     (Some yo) (Some yo) (tamanio s + 1)).
Proof.
  intros Ht. unfold agregar_cancion.
  paso. paso. 
  rewrite bool_decide_eq_true_2 by done.
  erewrite (bind_ok (bind _ _)); [|paso; reflexivity].
  paso. paso. reflexivity.
Qed.

Lemma agregar_no_vacia t a d r s p u :
  tamanio s ≠ 0 →
  primero s = Some p →
  ant (objetos s) p = Some u →
  (u < length (objetos s))%nat →
  agregar_cancion t a d r s =
    Ok (length (objetos s),
        mkEstado (enlazar_ultimo t a d r p u (objetos s))
                 (actual s) (primero s) (tamanio s + 1)).
Proof.
  intros Ht Hp Hu Hlt. pose proof (ant_Some_lt _ _ _ Hu) as Hplt.
  unfold agregar_cancion.
  paso. paso. rewrite bool_decide_eq_false_2 by done.
  erewrite (bind_ok (bind _ _)).
  2:{ paso. rewrite Hp. paso. rewrite ant_app_l, Hu by done.
      paso. paso. paso. paso. paso.
      apply modificar_ok. longitudes. }
  cbn [objetos actual primero tamanio].
  paso. paso. by rewrite Hp.
Qed.

Lemma eliminar_vacia s :
  tamanio s = 0 → eliminar_cancion_actual s = Ok (None, s).
Proof.
  intros Ht. unfold eliminar_cancion_actual.
  paso. by rewrite bool_decide_eq_true_2.
Qed.

Lemma eliminar_unico s :
  tamanio s = 1 →
  eliminar_cancion_actual s =
    Ok (actual s, mkEstado (objetos s) None None (tamanio s - 1)).
Proof.
  intros Ht. unfold eliminar_cancion_actual.
  paso. rewrite bool_decide_eq_false_2 by lia.
  paso. paso. rewrite (bool_decide_eq_true_2 _ Ht).
  erewrite (bind_ok (bind _ _)); [|paso; reflexivity].
  paso. paso. reflexivity.
Qed.

Lemma eliminar_varios s c pv nx :
  tamanio s ≠ 0 → tamanio s ≠ 1 →
  actual s = Some c →
  sig (objetos s) c = Some nx →
  ant (objetos s) c = Some pv →
  (pv < length (objetos s))%nat →
  (nx < length (objetos s))%nat →
  eliminar_cancion_actual s =
    Ok (Some c,
        mkEstado (desenlazar pv nx (objetos s))
                 (Some nx)
                 (if bool_decide (Some c = primero s) then Some nx else primero s)
                 (tamanio s - 1)).
Proof.
  intros Ht0 Ht1 Hc Hnx Hpv Hpvlt Hnxlt.
  pose proof (sig_Some_lt _ _ _ Hnx) as Hclt.
  assert (sig (alter (con_siguiente (Some nx)) pv (objetos s)) c = Some nx) as Hnx'.
  { destruct (decide (pv = c)) as [->|Hne].
    - by apply sig_alter_sig.
    - by rewrite sig_alter_ne. }
  unfold eliminar_cancion_actual.
  paso. rewrite bool_decide_eq_false_2 by done.
  paso. paso. rewrite bool_decide_eq_false_2 by done.
  destruct (decide (Some c = primero s)) as [Hcp|Hcp].
  - rewrite !(bool_decide_eq_true_2 _ Hcp).
    erewrite (bind_ok (bind _ _)).
    2:{ paso. paso. rewrite Hc, (bool_decide_eq_true_2 _ Hcp).
        erewrite (bind_ok (bind _ _)).
        2:{ paso. rewrite <- Hcp. paso. rewrite Hnx. reflexivity. }
        cbn [objetos actual primero tamanio].
        repeat (paso; rewrite ?Hc, ?ant_alter_sig, ?sig_alter_ant, ?Hnx', ?Hnx, ?Hpv).
        reflexivity. }
    cbn [objetos actual primero tamanio]. paso. paso. by rewrite Hc.
  - rewrite !(bool_decide_eq_false_2 _ Hcp).
    erewrite (bind_ok (bind _ _)).
    2:{ paso. paso. rewrite Hc, (bool_decide_eq_false_2 _ Hcp).
        erewrite (bind_ok (ret tt)) by reflexivity.
        repeat (paso; rewrite ?Hc, ?ant_alter_sig, ?sig_alter_ant, ?Hnx', ?Hnx, ?Hpv).
        reflexivity. }
    cbn [objetos actual primero tamanio]. paso. paso. by rewrite Hc.
Qed.

Lemma siguiente_vacia s :
  tamanio s = 0 → siguiente_cancion s = Ok (None, s).
Proof.
  intros Ht. unfold siguiente_cancion.
  paso. by rewrite bool_decide_eq_true_2.
Qed.

Lemma siguiente_no_vacia s c :
  tamanio s ≠ 0 → actual s = Some c → (c < length (objetos s))%nat →
  siguiente_cancion s =
    Ok (sig (objetos s) c,
        mkEstado (objetos s) (sig (objetos s) c) (primero s) (tamanio s)).
Proof.
  intros Ht Hc Hlt. unfold siguiente_cancion.
  paso. rewrite bool_decide_eq_false_2 by done.
  paso. rewrite Hc. paso. paso. reflexivity.
Qed.

Lemma anterior_vacia s :
  tamanio s = 0 → cancion_anterior s = Ok (None, s).
Proof.
  intros Ht. unfold cancion_anterior.
  paso. by rewrite bool_decide_eq_true_2.
Qed.

Lemma anterior_no_vacia s c :
  tamanio s ≠ 0 → actual s = Some c → (c < length (objetos s))%nat →
  cancion_anterior s =
    Ok (ant (objetos s) c,
        mkEstado (objetos s) (ant (objetos s) c) (primero s) (tamanio s)).
Proof.
  intros Ht Hc Hlt. unfold cancion_anterior.
  paso. rewrite bool_decide_eq_false_2 by done.
  paso. rewrite Hc. paso. paso. reflexivity.
Qed.

Lemma todas_vacia fuel s :
  tamanio s = 0 → obtener_todas_las_canciones fuel s = Ok ([], s).
Proof.
  intros Ht. unfold obtener_todas_las_canciones.
  paso. by rewrite bool_decide_eq_true_2.
Qed.
End Formas.

(** ** The two store updates, read back *)

Section Enlaces.
Implicit Types (h : list NodoCancion) (p u x pv nx : ref).
Local Open Scope nat_scope.

Lemma sig_enlazar_ultimo t a d r p u h x :
  u < length h →
  sig (enlazar_ultimo t a d r p u h) x =
    if decide (x = u) then Some (length h)
    else if decide (x = length h) then Some p
    else sig (h ++ [mkNodo t a d r (Some (length h)) (Some (length h))]) x.
Proof.
  intros Hu. unfold enlazar_ultimo. rewrite sig_alter_ant.
  destruct (decide (x = u)) as [->|Hxu].
  { apply sig_alter_sig. rewrite !length_alter, length_app. simpl. lia. }
  rewrite sig_alter_ne, sig_alter_ant by done.
  destruct (decide (x = length h)) as [->|Hxn].
  { apply sig_alter_sig. rewrite length_app. simpl. lia. }
  by rewrite sig_alter_ne.
Qed.

Lemma ant_enlazar_ultimo t a d r p u h x :
  p < length h →
  ant (enlazar_ultimo t a d r p u h) x =
    if decide (x = p) then Some (length h)
    else if decide (x = length h) then Some u
    else ant (h ++ [mkNodo t a d r (Some (length h)) (Some (length h))]) x.
Proof.
  intros Hp. unfold enlazar_ultimo.
  destruct (decide (x = p)) as [->|Hxp].
  { apply ant_alter_ant. rewrite !length_alter, length_app. simpl. lia. }
  rewrite ant_alter_ne, ant_alter_sig by done.
  destruct (decide (x = length h)) as [->|Hxn].
  { apply ant_alter_ant. rewrite !length_alter, length_app. simpl. lia. }
  by rewrite ant_alter_ne, ant_alter_sig.
Qed.

Lemma datos_enlazar_ultimo t a d r p u h x :
  datos <$> enlazar_ultimo t a d r p u h !! x =
  datos <$> (h ++ [mkNodo t a d r (Some (length h)) (Some (length h))]) !! x.
Proof.
  unfold enlazar_ultimo.
  by rewrite datos_alter_ant, datos_alter_sig, datos_alter_ant, datos_alter_sig.
Qed.

Lemma sig_desenlazar pv nx h x :
  pv < length h →
  sig (desenlazar pv nx h) x = if decide (x = pv) then Some nx else sig h x.
Proof.
  intros Hpv. unfold desenlazar. rewrite sig_alter_ant.
  destruct (decide (x = pv)) as [->|Hx].
  - by apply sig_alter_sig.
  - by rewrite sig_alter_ne.
Qed.

Lemma ant_desenlazar pv nx h x :
  nx < length h →
  ant (desenlazar pv nx h) x = if decide (x = nx) then Some pv else ant h x.
Proof.
  intros Hnx. unfold desenlazar.
  destruct (decide (x = nx)) as [->|Hx].
  - apply ant_alter_ant. by rewrite length_alter.
  - by rewrite ant_alter_ne, ant_alter_sig.
Qed.

(** Unlinking leaves every object other than the two neighbours as it was. *)
Lemma lookup_desenlazar_otro pv nx h x :
  x ≠ pv → x ≠ nx → desenlazar pv nx h !! x = h !! x.
Proof. intros. unfold desenlazar. by rewrite !list_lookup_alter_ne. Qed.
End Enlaces.

(** ** Positions in the ring *)

Section Posiciones.
Implicit Types (l : list ref) (i j k n : nat).
Local Open Scope nat_scope.

Lemma nxt_lt n i : i < n → nxt n i < n.
Proof. unfold nxt. case_decide; lia. Qed.

Lemma prv_lt n i : i < n → prv n i < n.
Proof. unfold prv. case_decide; lia. Qed.

Lemma prv_nxt n i : i < n → prv n (nxt n i) = i.
Proof. unfold nxt, prv. repeat case_decide; lia. Qed.

Lemma nxt_prv n i : i < n → nxt n (prv n i) = i.
Proof. unfold nxt, prv. repeat case_decide; lia. Qed.

Lemma saltar_nxt n j i :
  i < n → j ≤ n →
  saltar (nxt n) j i = if decide (i + j < n) then i + j else i + j - n.
Proof.
  revert i. induction j as [|j IH]; intros i Hi Hj; cbn [saltar].
  - case_decide; lia.
  - rewrite IH by (try apply nxt_lt; lia).
    unfold nxt. repeat case_decide; lia.
Qed.

Lemma saltar_prv n j i :
  i < n → j ≤ n →
  saltar (prv n) j i = if decide (j ≤ i) then i - j else i + n - j.
Proof.
  revert i. induction j as [|j IH]; intros i Hi Hj; cbn [saltar].
  - case_decide; lia.
  - rewrite IH by (try apply prv_lt; lia).
    unfold prv. repeat case_decide; lia.
Qed.

Lemma saltar_nxt_vuelta n i : i < n → saltar (nxt n) n i = i.
Proof. intros. rewrite saltar_nxt by lia. case_decide; lia. Qed.

Lemma saltar_prv_vuelta n i : i < n → saltar (prv n) n i = i.
Proof. intros. rewrite saltar_prv by lia. case_decide; lia. Qed.

(** Positions before and after the [k]-th element is deleted: the element
    at [i] afterwards was at [i] or [S i] before. *)
Lemma nxt_borrar n k i :
  2 ≤ n → k < n → (if decide (i < k) then i else S i) < n →
  (if decide (nxt (n - 1) i < k) then nxt (n - 1) i else S (nxt (n - 1) i)) =
  (if decide ((if decide (i < k) then i else S i) = prv n k)
   then nxt n k else nxt n (if decide (i < k) then i else S i)).
Proof. intros. unfold nxt, prv. repeat case_decide; lia. Qed.

Lemma prv_borrar n k i :
  2 ≤ n → k < n → (if decide (i < k) then i else S i) < n →
  (if decide (prv (n - 1) i < k) then prv (n - 1) i else S (prv (n - 1) i)) =
  (if decide ((if decide (i < k) then i else S i) = nxt n k)
   then prv n k else prv n (if decide (i < k) then i else S i)).
Proof. intros. unfold nxt, prv. repeat case_decide; lia. Qed.

Lemma nodup_pos l i j a b :
  NoDup l → l !! i = Some a → l !! j = Some b → a = b ↔ i = j.
Proof.
  intros Hl Hi Hj. split.
  - intros ->. by eapply NoDup_lookup.
  - intros ->. congruence.
Qed.
End Posiciones.

(** ** The ring is kept by every method *)

Section Invariante.
Implicit Types (s : estado) (l : list ref) (i j k : nat).
Local Open Scope nat_scope.

Lemma anillo_vacia : anillo ListaReproduccion__init__ [] 0.
Proof.
  split; simpl; try done; try (by right); [constructor|..];
    intros i a Hi; by rewrite lookup_nil in Hi.
Qed.

Lemma anillo_ref_lt s l k i a :
  anillo s l k → l !! i = Some a → a < length (objetos s).
Proof.
  intros Hs Hi. pose proof (an_sig _ _ _ Hs i a Hi) as Hsig.
  pose proof (lookup_lt_Some _ _ _ Hi) as Hlt.
  destruct (lookup_lt_is_Some_2 l (nxt (length l) i)) as [b Hb].
  { by apply nxt_lt. }
  rewrite Hb in Hsig. by eapply sig_Some_lt.
Qed.

Lemma anillo_tamanio_0 s l k : anillo s l k → (tamanio s = 0%Z ↔ l = []).
Proof.
  intros Hs. rewrite (an_tamanio _ _ _ Hs). destruct l; simpl; split; (done || lia).
Qed.

Lemma anillo_agregar t a d r s l k :
  anillo s l k →
  ∃ s', agregar_cancion t a d r s = Ok (length (objetos s), s') ∧
        anillo s' (l ++ [length (objetos s)]) k ∧
        (∀ x, datos <$> objetos s' !! x =
              datos <$> (objetos s ++ [mkNodo t a d r None None]) !! x) ∧
        actual s' = (if decide (l = []) then Some (length (objetos s)) else actual s).
Proof.
  intros Hs. destruct (decide (l = [])) as [->|Hl].
  - (* the empty playlist *)
    assert (tamanio s = 0%Z) as Ht by by apply (anillo_tamanio_0 s [] k).
    assert (k = 0) as -> by (destruct (an_cursor _ _ _ Hs) as [H|[_ H]]; simpl in *; lia).
    eexists. split; [by apply agregar_vacia|]. cbn zeta. split; [|split; [|done]].
    + split; cbn [objetos actual primero tamanio app length]; try done.
      * lia.
      * apply NoDup_singleton.
      * left. lia.
      * intros [|i] x Hx; simplify_eq/=. by rewrite sig_nuevo.
      * intros [|i] x Hx; simplify_eq/=. by rewrite ant_nuevo.
    + intros x. cbn [objetos].
      destruct (decide (x < length (objetos s))).
      * by rewrite !lookup_app_l.
      * rewrite !lookup_app_r by lia.
        by destruct (x - length (objetos s)) as [|[|?]].
  - (* at least one node *)
    assert (0 < length l) as Hn by (destruct l; simpl; [done|lia]).
    remember (length l) as n eqn:En.
    destruct (lookup_lt_is_Some_2 l 0) as [p Hp]; [lia|].
    destruct (lookup_lt_is_Some_2 l (pred n)) as [u Hu]; [lia|].
    pose proof (anillo_ref_lt _ _ _ _ _ Hs Hp) as Hplt.
    pose proof (anillo_ref_lt _ _ _ _ _ Hs Hu) as Hult.
    assert (ant (objetos s) p = Some u) as Hant.
    { rewrite (an_ant _ _ _ Hs 0 p Hp), <- En. done. }
    assert (k < n) as Hk.
    { destruct (an_cursor _ _ _ Hs) as [H|[H _]]; [lia|by destruct Hl]. }
    eexists. split.
    { apply (agregar_no_vacia t a d r s p u); try done.
      - rewrite (anillo_tamanio_0 s l k Hs). done.
      - by rewrite (an_primero _ _ _ Hs). }
    split; [|split; [|done]].
    + split; cbn [objetos actual primero tamanio].
      * rewrite (an_tamanio _ _ _ Hs), length_app. simpl. lia.
      * apply NoDup_app. split; [apply (an_nodup _ _ _ Hs)|].
        split; [|apply NoDup_singleton].
        intros x Hx Hx'. apply list_elem_of_singleton in Hx'. subst x.
        apply list_elem_of_lookup in Hx as [i Hi].
        pose proof (anillo_ref_lt _ _ _ _ _ Hs Hi). lia.
      * rewrite (an_primero _ _ _ Hs). by rewrite lookup_app_l by lia.
      * rewrite (an_actual _ _ _ Hs). by rewrite lookup_app_l by lia.
      * left. rewrite length_app. simpl. lia.
      * intros i x Hx. rewrite sig_enlazar_ultimo by done.
        rewrite length_app. cbn [length]. rewrite <- En.
        apply lookup_snoc_Some in Hx as [[Hi Hx]|[Hi <-]]; rewrite <- En in Hi.
        -- pose proof (anillo_ref_lt _ _ _ _ _ Hs Hx) as Hxlt.
           pose proof (nodup_pos l i (pred n) x u (an_nodup _ _ _ Hs) Hx Hu) as Hpos.
           pose proof (an_sig _ _ _ Hs i x Hx) as Hsig. rewrite <- En in Hsig.
           unfold nxt in *. repeat case_decide; try lia.
           ++ symmetry. replace (S i) with n by lia. apply list_lookup_middle. done.
           ++ rewrite sig_app_l, Hsig by done. by rewrite lookup_app_l by lia.
        -- unfold nxt. repeat case_decide; try lia.
           by rewrite lookup_app_l by lia.
      * intros i x Hx. rewrite ant_enlazar_ultimo by done.
        rewrite length_app. cbn [length]. rewrite <- En.
        apply lookup_snoc_Some in Hx as [[Hi Hx]|[Hi <-]]; rewrite <- En in Hi.
        -- pose proof (anillo_ref_lt _ _ _ _ _ Hs Hx) as Hxlt.
           pose proof (nodup_pos l i 0 x p (an_nodup _ _ _ Hs) Hx Hp) as Hpos.
           pose proof (an_ant _ _ _ Hs i x Hx) as Hsig. rewrite <- En in Hsig.
           destruct (decide (x = p)) as [Hxp|Hxp].
           ++ symmetry. replace (prv (n + 1) i) with n
                by (unfold prv; repeat case_decide; lia).
              rewrite En. by apply list_lookup_middle.
           ++ rewrite decide_False by lia. rewrite ant_app_l, Hsig by done.
              replace (prv (n + 1) i) with (prv n i)
                by (unfold prv; repeat case_decide; lia).
              by rewrite lookup_app_l by (rewrite <- En; apply prv_lt; lia).
        -- rewrite decide_False, decide_True by (done || lia). subst i.
           rewrite lookup_app_l by (rewrite <- En; unfold prv; case_decide; lia).
           rewrite <- Hu. f_equal. unfold prv. case_decide; lia.
    + intros x. cbn [objetos]. rewrite datos_enlazar_ultimo.
      destruct (decide (x < length (objetos s))).
      * by rewrite !lookup_app_l.
      * rewrite !lookup_app_r by lia.
        by destruct (x - length (objetos s)) as [|[|?]].
Qed.

Lemma anillo_eliminar_unico s l k :
  anillo s l k → length l = 1 →
  ∃ c, l = [c] ∧ actual s = Some c ∧
       eliminar_cancion_actual s =
         Ok (Some c, mkEstado (objetos s) None None (tamanio s - 1)) ∧
       anillo (mkEstado (objetos s) None None (tamanio s - 1)) [] 0.
Proof.
  intros Hs Hn. destruct l as [|c [|? ?]]; simplify_eq/=.
  assert (k = 0) as ->.
  { destruct (an_cursor _ _ _ Hs) as [H|[H _]]; simpl in *; [lia|done]. }
  pose proof (an_actual _ _ _ Hs) as Hc. simpl in Hc.
  pose proof (an_tamanio _ _ _ Hs) as Ht. simpl in Ht.
  exists c. split; [done|]. split; [done|]. split.
  - rewrite <- Hc. apply eliminar_unico. lia.
  - split; cbn [objetos actual primero tamanio length]; try done.
    + lia.
    + constructor.
    + by right.
Qed.

Lemma anillo_eliminar_varios s l k :
  anillo s l k → 2 ≤ length l →
  ∃ c pv nx,
    l !! k = Some c ∧
    l !! prv (length l) k = Some pv ∧
    l !! nxt (length l) k = Some nx ∧
    pv ≠ c ∧ nx ≠ c ∧
    eliminar_cancion_actual s =
      Ok (Some c,
          mkEstado (desenlazar pv nx (objetos s)) (Some nx)
                   (if bool_decide (Some c = primero s) then Some nx else primero s)
                   (tamanio s - 1)) ∧
    anillo (mkEstado (desenlazar pv nx (objetos s)) (Some nx)
                     (if bool_decide (Some c = primero s) then Some nx else primero s)
                     (tamanio s - 1))
           (delete k l) (if decide (S k = length l) then 0 else k).
Proof.
  intros Hs Hn.
  assert (k < length l) as Hk.
  { destruct (an_cursor _ _ _ Hs) as [H|[-> _]]; simpl in *; [done|lia]. }
  destruct (lookup_lt_is_Some_2 l k Hk) as [c Hc].
  destruct (lookup_lt_is_Some_2 l (prv (length l) k)) as [pv Hpv]; [by apply prv_lt|].
  destruct (lookup_lt_is_Some_2 l (nxt (length l) k)) as [nx Hnx]; [by apply nxt_lt|].
  pose proof (an_nodup _ _ _ Hs) as Hnd.
  pose proof (anillo_ref_lt _ _ _ _ _ Hs Hc) as Hclt.
  pose proof (anillo_ref_lt _ _ _ _ _ Hs Hpv) as Hpvlt.
  pose proof (anillo_ref_lt _ _ _ _ _ Hs Hnx) as Hnxlt.
  pose proof (nodup_pos l _ _ _ _ Hnd Hpv Hc) as Hpvc.
  pose proof (nodup_pos l _ _ _ _ Hnd Hnx Hc) as Hnxc.
  pose proof (an_tamanio _ _ _ Hs) as Ht.
  exists c, pv, nx. do 3 (split; [done|]).
  split; [unfold prv in *; repeat case_decide; lia|].
  split; [unfold nxt in *; repeat case_decide; lia|].
  split.
  { apply eliminar_varios; try done; try lia.
    - by rewrite (an_actual _ _ _ Hs).
    - by rewrite (an_sig _ _ _ Hs k c Hc).
    - by rewrite (an_ant _ _ _ Hs k c Hc). }
  assert (length (delete k l) = length l - 1) as Hlen by by apply length_delete.
  split; cbn [objetos actual primero tamanio].
  - lia.
  - eapply sublist_NoDup; [done|apply sublist_delete].
  - rewrite (an_primero _ _ _ Hs).
    destruct (lookup_lt_is_Some_2 l 0) as [p0 Hp0]; [lia|].
    pose proof (nodup_pos l _ _ _ _ Hnd Hc Hp0) as Hcp0.
    rewrite list_lookup_delete, Hp0. case_bool_decide as Hb; simplify_eq.
    + rewrite <- Hnx. f_equal. unfold nxt. repeat case_decide; lia.
    + rewrite <- Hp0. f_equal. case_decide; [done|]. destruct Hb. f_equal. lia.
  - rewrite list_lookup_delete, <- Hnx. f_equal.
    unfold nxt. repeat case_decide; lia.
  - left. case_decide; lia.
  - intros i x Hx. rewrite Hlen. rewrite list_lookup_delete in Hx.
    pose proof (lookup_lt_Some _ _ _ Hx) as Hj.
    pose proof (nodup_pos l _ _ _ _ Hnd Hx Hpv) as Hxpv.
    pose proof (nodup_pos l _ _ _ _ Hnd Hx Hc) as Hxc.
    rewrite sig_desenlazar, list_lookup_delete by done.
    rewrite (an_sig _ _ _ Hs _ x Hx), nxt_borrar by done.
    destruct (decide (x = pv)) as [Hxp|Hxp].
    + by rewrite (decide_True _ _ (proj1 Hxpv Hxp)), Hnx.
    + by rewrite (decide_False _ _ (λ E, Hxp (proj2 Hxpv E))).
  - intros i x Hx. rewrite Hlen. rewrite list_lookup_delete in Hx.
    pose proof (lookup_lt_Some _ _ _ Hx) as Hj.
    pose proof (nodup_pos l _ _ _ _ Hnd Hx Hnx) as Hxnx.
    pose proof (nodup_pos l _ _ _ _ Hnd Hx Hc) as Hxc.
    rewrite ant_desenlazar, list_lookup_delete by done.
    rewrite (an_ant _ _ _ Hs _ x Hx), prv_borrar by done.
    destruct (decide (x = nx)) as [Hxp|Hxp].
    + by rewrite (decide_True _ _ (proj1 Hxnx Hxp)), Hpv.
    + by rewrite (decide_False _ _ (λ E, Hxp (proj2 Hxnx E))).
Qed.

Lemma anillo_siguiente s l k :
  anillo s l k → l ≠ [] →
  let c := l !! nxt (length l) k in
  siguiente_cancion s = Ok (c, mkEstado (objetos s) c (primero s) (tamanio s)) ∧
  anillo (mkEstado (objetos s) c (primero s) (tamanio s)) l (nxt (length l) k).
Proof.
  intros Hs Hl c.
  assert (k < length l) as Hk.
  { destruct (an_cursor _ _ _ Hs) as [H|[H _]]; [done|by destruct Hl]. }
  destruct (lookup_lt_is_Some_2 l k Hk) as [x Hx].
  pose proof (anillo_ref_lt _ _ _ _ _ Hs Hx) as Hxlt.
  split.
  - rewrite (siguiente_no_vacia s x); try done.
    + by rewrite (an_sig _ _ _ Hs k x Hx).
    + by rewrite (anillo_tamanio_0 s l k Hs).
    + by rewrite (an_actual _ _ _ Hs).
  - destruct Hs. split; cbn [objetos actual primero tamanio]; try done.
    left. by apply nxt_lt.
Qed.

Lemma anillo_anterior s l k :
  anillo s l k → l ≠ [] →
  let c := l !! prv (length l) k in
  cancion_anterior s = Ok (c, mkEstado (objetos s) c (primero s) (tamanio s)) ∧
  anillo (mkEstado (objetos s) c (primero s) (tamanio s)) l (prv (length l) k).
Proof.
  intros Hs Hl c.
  assert (k < length l) as Hk.
  { destruct (an_cursor _ _ _ Hs) as [H|[H _]]; [done|by destruct Hl]. }
  destruct (lookup_lt_is_Some_2 l k Hk) as [x Hx].
  pose proof (anillo_ref_lt _ _ _ _ _ Hs Hx) as Hxlt.
  split.
  - rewrite (anterior_no_vacia s x); try done.
    + by rewrite (an_ant _ _ _ Hs k x Hx).
    + by rewrite (anillo_tamanio_0 s l k Hs).
    + by rewrite (an_actual _ _ _ Hs).
  - destruct Hs. split; cbn [objetos actual primero tamanio]; try done.
    left. by apply prv_lt.
Qed.

(** The loop, entered after [i] nodes have been collected. *)
Lemma mientras_anillo s l k fuel :
  anillo s l k →
  ∀ i, 1 ≤ i ≤ length l → length l - i < fuel →
  mientras fuel (l !! nxt (length l) (i - 1)) (Some <$> take i l) s =
    Ok (Some <$> l, s).
Proof.
  intros Hs. induction fuel as [|fuel IH]; intros i Hi Hfuel; [lia|].
  cbn [mientras]. paso. rewrite (an_primero _ _ _ Hs).
  destruct (decide (i = length l)) as [->|Hne].
  - replace (nxt (length l) (length l - 1)) with 0
      by (unfold nxt; case_decide; lia).
    rewrite bool_decide_eq_false_2 by (intros H; by apply H).
    by rewrite take_ge.
  - assert (nxt (length l) (i - 1) = i) as -> by (unfold nxt; case_decide; lia).
    destruct (lookup_lt_is_Some_2 l i) as [x Hx]; [lia|].
    destruct (lookup_lt_is_Some_2 l 0) as [p Hp]; [lia|].
    rewrite Hx, Hp. rewrite bool_decide_eq_true_2.
    2:{ intros [= ->]. pose proof (NoDup_lookup _ _ _ _ (an_nodup _ _ _ Hs) Hx Hp). lia. }
    pose proof (anillo_ref_lt _ _ _ _ _ Hs Hx) as Hxlt.
    cbn zeta. paso. rewrite (an_sig _ _ _ Hs i x Hx).
    replace ((Some <$> take i l) ++ [Some x]) with (Some <$> take (S i) l : list (option nat)).
    2:{ rewrite (take_S_r _ _ _ Hx), fmap_app. done. }
    replace i with (S i - 1) at 1 by lia. apply IH; lia.
Qed.

Lemma todas_anillo s l k fuel :
  anillo s l k → length l ≤ fuel →
  obtener_todas_las_canciones fuel s = Ok (Some <$> l, s).
Proof.
  intros Hs Hfuel. destruct (decide (l = [])) as [->|Hl].
  - apply todas_vacia. by apply (anillo_tamanio_0 s [] k).
  - assert (0 < length l) as Hn by (destruct l; simpl; [done|lia]).
    destruct (lookup_lt_is_Some_2 l 0 Hn) as [p Hp].
    unfold obtener_todas_las_canciones. paso.
    rewrite bool_decide_eq_false_2 by by rewrite (anillo_tamanio_0 s l k Hs).
    pose proof (anillo_ref_lt _ _ _ _ _ Hs Hp) as Hplt.
    cbn zeta. paso. rewrite (an_primero _ _ _ Hs), Hp. paso.
    rewrite (an_sig _ _ _ Hs 0 p Hp).
    replace ([] ++ [Some p]) with (Some <$> take 1 l : list (option nat)).
    2:{ destruct l; simplify_eq/=. done. }
    replace 0 with (1 - 1) at 1 by lia.
    apply (mientras_anillo s l k); [done|lia..].
Qed.

Lemma iterar_sig_anillo s l k j i a :
  anillo s l k → l !! i = Some a →
  iterar (sig (objetos s)) j a = l !! saltar (nxt (length l)) j i.
Proof.
  intros Hs. revert i a. induction j as [|j IH]; intros i a Hi; simpl; [done|].
  rewrite (an_sig _ _ _ Hs i a Hi).
  pose proof (lookup_lt_Some _ _ _ Hi) as Hlt.
  destruct (lookup_lt_is_Some_2 l (nxt (length l) i)) as [b Hb]; [by apply nxt_lt|].
  rewrite Hb. simpl. by apply IH.
Qed.

(** The nodes in the ring are exactly the members of the list. *)
Lemma en_anillo_lista s l k a :
  anillo s l k → en_anillo s a ↔ a ∈ l.
Proof.
  intros Hs. split.
  - intros (p & j & Hp & Hj). rewrite (an_primero _ _ _ Hs) in Hp.
    rewrite (iterar_sig_anillo s l k j 0 p Hs Hp) in Hj.
    apply list_elem_of_lookup. eauto.
  - intros Ha. apply list_elem_of_lookup in Ha as [i Hi].
    pose proof (lookup_lt_Some _ _ _ Hi) as Hlt.
    destruct (lookup_lt_is_Some_2 l 0) as [p Hp]; [lia|].
    exists p, i. split; [by rewrite (an_primero _ _ _ Hs)|].
    rewrite (iterar_sig_anillo s l k i 0 p Hs Hp).
    rewrite saltar_nxt by lia. rewrite decide_True by lia. done.
Qed.

(** [repetir] applied to the two cursor moves. *)
Lemma repetir_siguiente s l k j :
  anillo s l k → l ≠ [] →
  repetir siguiente_cancion j s =
    Ok (tt, mkEstado (objetos s) (l !! saltar (nxt (length l)) j k)
                     (primero s) (tamanio s)).
Proof.
  intros Hs Hl. revert s k Hs. induction j as [|j IH]; intros s k Hs.
  - simpl. unfold ret. rewrite <- (an_actual _ _ _ Hs). by destruct s.
  - destruct (anillo_siguiente s l k Hs Hl) as [Hrun Hs'].
    cbn [repetir saltar]. rewrite (bind_ok _ _ _ _ _ Hrun).
    by rewrite (IH _ _ Hs').
Qed.

Lemma repetir_anterior s l k j :
  anillo s l k → l ≠ [] →
  repetir cancion_anterior j s =
    Ok (tt, mkEstado (objetos s) (l !! saltar (prv (length l)) j k)
                     (primero s) (tamanio s)).
Proof.
  intros Hs Hl. revert s k Hs. induction j as [|j IH]; intros s k Hs.
  - simpl. unfold ret. rewrite <- (an_actual _ _ _ Hs). by destruct s.
  - destruct (anillo_anterior s l k Hs Hl) as [Hrun Hs'].
    cbn [repetir saltar]. rewrite (bind_ok _ _ _ _ _ Hrun).
    by rewrite (IH _ _ Hs').
Qed.

(** The traversal never writes. *)
Lemma mientras_estado fuel nodo canciones s v s' :
  mientras fuel nodo canciones s = Ok (v, s') → s' = s.
Proof.
  revert nodo canciones. induction fuel as [|fuel IH]; intros nodo canciones; [done|].
  cbn [mientras]. unfold bind at 1. cbn [leer_primero].
  case_bool_decide; [|by intros [= _ ->]].
  cbn zeta. unfold bind, leer_siguiente, bind, nodo_de, ret.
  destruct nodo as [x|]; [|done]. destruct (objetos s !! x); [|done].
  apply IH.
Qed.

Lemma todas_estado fuel s v s' :
  obtener_todas_las_canciones fuel s = Ok (v, s') → s' = s.
Proof.
  unfold obtener_todas_las_canciones. rewrite (bind_ok _ _ _ _ _ (esta_vacia_ok s)).
  case_bool_decide; [by intros [= _ ->]|].
  cbn zeta. unfold bind, leer_primero, leer_siguiente, bind, nodo_de, ret.
  destruct (primero s) as [x|]; [|done]. destruct (objetos s !! x); [|done].
  apply mientras_estado.
Qed.

(** Every call keeps the ring. *)
Lemma ejecutar_anillo c s v s' :
  bien_formada s → ejecutar c s = Ok (v, s') → bien_formada s'.
Proof.
  intros (l & k & Hs) Hrun. destruct c as [t a d r| | | | | |fuel]; simpl in Hrun.
  - destruct (anillo_agregar t a d r s l k Hs) as (s1 & Hag & Hs1 & _).
    rewrite (bind_ok _ _ _ _ _ Hag) in Hrun. injection Hrun as _ <-.
    by exists (l ++ [length (objetos s)]), k.
  - destruct (decide (length l = 0)) as [Hn|Hn0].
    { assert (tamanio s = 0%Z) as Ht by (rewrite (an_tamanio _ _ _ Hs); lia).
      rewrite (bind_ok _ _ _ _ _ (eliminar_vacia s Ht)) in Hrun.
      injection Hrun as _ <-. by exists l, k. }
    destruct (decide (length l = 1)) as [Hn1|Hn1].
    + destruct (anillo_eliminar_unico s l k Hs Hn1) as (c & _ & _ & Hel & Hs1).
      rewrite (bind_ok _ _ _ _ _ Hel) in Hrun. injection Hrun as _ <-.
      by exists [], 0.
    + destruct (anillo_eliminar_varios s l k Hs) as (c & pv & nx & _ & _ & _ & _ & _ & Hel & Hs1);
        [lia|].
      rewrite (bind_ok _ _ _ _ _ Hel) in Hrun. injection Hrun as _ <-.
      by eexists _, _.
  - destruct (decide (l = [])) as [->|Hl].
    + rewrite (bind_ok _ _ _ _ _ (siguiente_vacia s (proj2 (anillo_tamanio_0 s [] k Hs) eq_refl))) in Hrun.
      injection Hrun as _ <-. by exists [], k.
    + destruct (anillo_siguiente s l k Hs Hl) as [Hsi Hs1].
      rewrite (bind_ok _ _ _ _ _ Hsi) in Hrun. injection Hrun as _ <-.
      by eexists _, _.
  - destruct (decide (l = [])) as [->|Hl].
    + rewrite (bind_ok _ _ _ _ _ (anterior_vacia s (proj2 (anillo_tamanio_0 s [] k Hs) eq_refl))) in Hrun.
      injection Hrun as _ <-. by exists [], k.
    + destruct (anillo_anterior s l k Hs Hl) as [Hsi Hs1].
      rewrite (bind_ok _ _ _ _ _ Hsi) in Hrun. injection Hrun as _ <-.
      by eexists _, _.
  - injection Hrun as _ <-. by exists l, k.
  - injection Hrun as _ <-. by exists l, k.
  - unfold bind in Hrun.
    destruct (obtener_todas_las_canciones fuel s) as [[v0 s0]|] eqn:E; [|done].
    apply todas_estado in E. subst s0. injection Hrun as _ <-. by exists l, k.
Qed.

(** No call raises on a well-formed playlist, so [alcanzable] misses no
    state left behind by an exception; the traversal needs a loop budget of
    at least the size. *)
Lemma ejecutar_progresa c s :
  bien_formada s →
  (∀ fuel, c = Todas fuel → Z.to_nat (tamanio s) ≤ fuel) →
  ∃ v s', ejecutar c s = Ok (v, s').
Proof.
  intros (l & k & Hs) Hfuel.
  pose proof (an_tamanio _ _ _ Hs) as Ht.
  destruct c as [t a d r| | | | | |fuel]; cbn [ejecutar].
  - destruct (anillo_agregar t a d r s l k Hs) as (s1 & Hag & _).
    eexists _, _. by rewrite (bind_ok _ _ _ _ _ Hag).
  - destruct (decide (length l = 0)) as [Hn|Hn0].
    { assert (tamanio s = 0%Z) as Ht0 by lia.
      eexists _, _. by rewrite (bind_ok _ _ _ _ _ (eliminar_vacia s Ht0)). }
    destruct (decide (length l = 1)) as [Hn1|Hn1].
    + destruct (anillo_eliminar_unico s l k Hs Hn1) as (c & _ & _ & Hel & _).
      eexists _, _. by rewrite (bind_ok _ _ _ _ _ Hel).
    + destruct (anillo_eliminar_varios s l k Hs) as
        (c & pv & nx & _ & _ & _ & _ & _ & Hel & _); [lia|].
      eexists _, _. by rewrite (bind_ok _ _ _ _ _ Hel).
  - destruct (decide (l = [])) as [->|Hl].
    + eexists _, _. by rewrite (bind_ok _ _ _ _ _ (siguiente_vacia s Ht)).
    + destruct (anillo_siguiente s l k Hs Hl) as [Hsi _].
      eexists _, _. by rewrite (bind_ok _ _ _ _ _ Hsi).
  - destruct (decide (l = [])) as [->|Hl].
    + eexists _, _. by rewrite (bind_ok _ _ _ _ _ (anterior_vacia s Ht)).
    + destruct (anillo_anterior s l k Hs Hl) as [Hsi _].
      eexists _, _. by rewrite (bind_ok _ _ _ _ _ Hsi).
  - by eexists _, _.
  - by eexists _, _.
  - specialize (Hfuel fuel eq_refl).
    assert (length l ≤ fuel) as Hle by lia.
    eexists _, _. by rewrite (bind_ok _ _ _ _ _ (todas_anillo s l k fuel Hs Hle)).
Qed.

Lemma alcanzable_bien_formada s : alcanzable s → bien_formada s.
Proof.
  induction 1 as [|s c v s' _ IH Hrun].
  - exists [], 0. apply anillo_vacia.
  - by eapply ejecutar_anillo.
Qed.
End Invariante.

Lemma lista_abc_anillo : anillo lista_abc [0; 1; 2]%nat 0.
Proof.
  split; try reflexivity.
  - apply (bool_decide_unpack _). vm_compute. exact I.
  - left. simpl. lia.
  - intros [|[|[|i]]] a Hi; cbn in Hi; simplify_eq; reflexivity.
  - intros [|[|[|i]]] a Hi; cbn in Hi; simplify_eq; reflexivity.
Qed.

Lemma lista_vaciada_anillo : anillo lista_vaciada [] 0.
Proof.
  split; try reflexivity.
  - constructor.
  - by right.
  - intros i a Hi. by rewrite lookup_nil in Hi.
  - intros i a Hi. by rewrite lookup_nil in Hi.
Qed.

Lemma lista_gemelas_anillo : anillo lista_gemelas [0; 1]%nat 0.
Proof.
  split; try reflexivity.
  - apply (bool_decide_unpack _). vm_compute. exact I.
  - left. simpl. lia.
  - intros [|[|i]] a Hi; cbn in Hi; simplify_eq; reflexivity.
  - intros [|[|i]] a Hi; cbn in Hi; simplify_eq; reflexivity.
Qed.

Lemma alcanzable_agregar_todas cs s ns s' :
  alcanzable s → agregar_todas cs s = Ok (ns, s') → alcanzable s'.
Proof.
  revert s ns. induction cs as [|[[[t a] d] r] cs IH]; intros s ns Hs Hrun.
  - by injection Hrun as _ <-.
  - cbn [agregar_todas] in Hrun. unfold bind at 1 in Hrun.
    destruct (agregar_cancion t a d r s) as [[n s1]|] eqn:E1; [|done].
    unfold bind at 1 in Hrun.
    destruct (agregar_todas cs s1) as [[ns1 s2]|] eqn:E2; [|done].
    injection Hrun as _ <-. apply (IH s1 ns1); [|done].
    apply (alc_paso s (Agregar t a d r) (VNodo (Some n))); [done|].
    simpl. by rewrite (bind_ok _ _ _ _ _ E1).
Qed.

Lemma lista_abc_alcanzable : alcanzable lista_abc.
Proof.
  apply (alcanzable_agregar_todas
           [("A", "x", 125, "a.mp3"); ("B", "x", 200, "b.mp3"); ("C", "x", 61, "c.mp3")]
           ListaReproduccion__init__ [0; 1; 2]%nat).
  - apply alc_vacia.
  - vm_compute. reflexivity.
Qed.

(** A session on three tracks: listing, a full turn of the cursor, and the
    removal of the head. *)
Example escenario_abc :
  (let! _ := tres in
   let! l := obtener_todas_las_canciones 3 in
   let! c0 := obtener_cancion_actual in
   let! c1 := siguiente_cancion in
   let! c2 := siguiente_cancion in
   let! c3 := siguiente_cancion in
   let! x := eliminar_cancion_actual in
   let! p := leer_primero in
   let! c4 := obtener_cancion_actual in
   let! n := __len__ in
   let! l' := obtener_todas_las_canciones 2 in
   ret (l, [c0; c1; c2; c3], x, p, c4, n, l')) ListaReproduccion__init__
  = Ok (([Some 0; Some 1; Some 2], [Some 0; Some 1; Some 2; Some 0],
         Some 0, Some 1, Some 1, 2%Z, [Some 1; Some 2])%nat,
        mkEstado (desenlazar 2 1 (objetos lista_abc)) (Some 1%nat) (Some 1%nat) 2).
Proof. reflexivity. Qed.

(** * The claims *)

Section Agregar.
Local Open Scope nat_scope.

Lemma agregar_datos t a d r s l k :
  anillo s l k →
  ∃ s', agregar_cancion t a d r s = Ok (length (objetos s), s') ∧
        anillo s' (l ++ [length (objetos s)]) k ∧
        datos <$> objetos s' = (datos <$> objetos s) ++ [(t, a, d, r)] ∧
        length (objetos s') = S (length (objetos s)).
Proof.
  intros Hs. destruct (anillo_agregar t a d r s l k Hs) as (s' & Hrun & Hs' & Hd & _).
  assert (datos <$> objetos s' = (datos <$> objetos s) ++ [(t, a, d, r)]) as Hdatos.
  { apply list_eq. intros x. rewrite list_lookup_fmap, Hd, <- list_lookup_fmap.
    by rewrite fmap_app. }
  exists s'. do 3 (split; [done|]).
  apply (f_equal length) in Hdatos.
  rewrite length_app, !length_fmap in Hdatos. simpl in Hdatos. lia.
Qed.

Lemma agregar_todas_anillo cs s l k :
  anillo s l k →
  let ns := seq (length (objetos s)) (length cs) in
  ∃ s', agregar_todas cs s = Ok (ns, s') ∧
        anillo s' (l ++ ns) k ∧
        datos <$> objetos s' = (datos <$> objetos s) ++ cs.
Proof.
  revert s l. induction cs as [|[[[t a] d] r] cs IH]; intros s l Hs; cbn zeta.
  - exists s. simpl. by rewrite !app_nil_r.
  - destruct (agregar_datos t a d r s l k Hs) as (s1 & Hrun & Hs1 & Hd1 & Hlen1).
    destruct (IH s1 _ Hs1) as (s2 & Hrun2 & Hs2 & Hd2). cbn zeta in *.
    exists s2. cbn [agregar_todas length seq].
    rewrite (bind_ok _ _ _ _ _ Hrun), (bind_ok _ _ _ _ _ Hrun2).
    rewrite Hlen1 in *. split; [done|]. split.
    + by rewrite <- app_assoc in Hs2.
    + by rewrite Hd2, Hd1, <- app_assoc.
Qed.
End Agregar.

(** C1: on an empty well-formed playlist (a new one, or one emptied by
    removals) [n] appends succeed; afterwards [__len__] returns [n] and
    [obtener_todas_las_canciones] returns exactly the [n] nodes the appends
    returned, pairwise distinct, in the order of the appends, each carrying
    the track data it was created with. *)
Theorem agregar_n_en_orden (cs : list (string * string * Z * string)) (s0 : estado) :
  bien_formada s0 → tamanio s0 = 0 →
  ∃ ns s,
    agregar_todas cs s0 = Ok (ns, s) ∧
    __len__ s = Ok (Z.of_nat (length cs), s) ∧
    length ns = length cs ∧
    NoDup ns ∧
    (∀ fuel, (length cs ≤ fuel)%nat →
       obtener_todas_las_canciones fuel s = Ok (Some <$> ns, s)) ∧
    (∀ i n, ns !! i = Some n → datos <$> objetos s !! n = cs !! i).
Proof.
  intros (l & k & Hs0) Ht0.
  apply (anillo_tamanio_0 s0 l k Hs0) in Ht0. subst l.
  destruct (agregar_todas_anillo cs _ _ _ Hs0) as (s & Hrun & Hs & Hd).
  cbn [app] in *.
  exists (seq (length (objetos s0)) (length cs)), s. split; [done|].
  pose proof (an_tamanio _ _ _ Hs) as Ht. rewrite length_seq in Ht.
  split; [|split; [|split; [|split]]].
  - unfold __len__, leer_tamanio. by rewrite Ht.
  - apply length_seq.
  - apply NoDup_seq.
  - intros fuel Hfuel. apply (todas_anillo s _ k); [done|].
    by rewrite length_seq.
  - intros i n Hi. apply lookup_seq in Hi as [-> _].
    rewrite <- list_lookup_fmap, Hd.
    rewrite lookup_app_r by (rewrite length_fmap; lia).
    f_equal. rewrite length_fmap. lia.
Qed.

Lemma agregar_n_en_orden_witness :
  ∃ ns s,
    agregar_todas [("A", "x", 125, "a.mp3"); ("B", "x", 200, "b.mp3");
                   ("C", "x", 61, "c.mp3")] lista_vaciada = Ok (ns, s) ∧
    __len__ s = Ok (3, s) ∧
    length ns = 3%nat ∧
    NoDup ns ∧
    (∀ fuel, (3 ≤ fuel)%nat →
       obtener_todas_las_canciones fuel s = Ok (Some <$> ns, s)) ∧
    (∀ i n, ns !! i = Some n →
       datos <$> objetos s !! n =
       [("A", "x", 125, "a.mp3"); ("B", "x", 200, "b.mp3");
        ("C", "x", 61, "c.mp3")] !! i).
Proof.
  apply (agregar_n_en_orden
           [("A", "x", 125, "a.mp3"); ("B", "x", 200, "b.mp3"); ("C", "x", 61, "c.mp3")]
           lista_vaciada).
  - exists [], 0%nat. exact lista_vaciada_anillo.
  - reflexivity.
Defined.

(** C2: on a well-formed non-empty playlist [eliminar_cancion_actual]
    returns the node under the cursor and takes one off the size; a
    one-node playlist becomes empty, and otherwise the two neighbours of
    the removed node are linked to each other, the cursor is its former
    successor, and the head is that successor when the removed node was the
    head and is unchanged when it was not. *)
Theorem eliminar_actual_correcto (s : estado) :
  bien_formada s → tamanio s ≠ 0 →
  ∃ c s',
    actual s = Some c ∧
    eliminar_cancion_actual s = Ok (Some c, s') ∧
    tamanio s' = tamanio s - 1 ∧
    bien_formada s' ∧
    (tamanio s = 1 → actual s' = None ∧ primero s' = None ∧ tamanio s' = 0) ∧
    (tamanio s ≠ 1 →
       ∃ pv nx,
         ant (objetos s) c = Some pv ∧ sig (objetos s) c = Some nx ∧
         sig (objetos s') pv = Some nx ∧ ant (objetos s') nx = Some pv ∧
         actual s' = Some nx ∧
         primero s' = (if decide (primero s = Some c) then Some nx else primero s)).
Proof.
  intros (l & k & Hs) Ht. pose proof (an_tamanio _ _ _ Hs) as Hlen.
  destruct (decide (length l = 1%nat)) as [Hn|Hn].
  - destruct (anillo_eliminar_unico s l k Hs Hn) as (c & -> & Hc & Hrun & Hs').
    exists c, (mkEstado (objetos s) None None (tamanio s - 1)).
    cbn [objetos actual primero tamanio]. simpl in Hlen.
    split; [done|]. split; [done|]. split; [done|].
    split; [by exists [], 0%nat|]. split; [intros _; repeat split; lia|lia].
  - destruct (anillo_eliminar_varios s l k Hs) as
      (c & pv & nx & Hc & Hpv & Hnx & Hpvc & Hnxc & Hrun & Hs'); [lia|].
    eexists c, _. cbn [objetos actual primero tamanio].
    split; [by rewrite (an_actual _ _ _ Hs)|]. split; [exact Hrun|].
    cbn [objetos actual primero tamanio].
    split; [done|]. split; [by eexists _, _|]. split; [lia|]. intros _.
    exists pv, nx.
    pose proof (anillo_ref_lt _ _ _ _ _ Hs Hpv) as Hpvlt.
    pose proof (anillo_ref_lt _ _ _ _ _ Hs Hnx) as Hnxlt.
    split; [by rewrite (an_ant _ _ _ Hs k c Hc)|].
    split; [by rewrite (an_sig _ _ _ Hs k c Hc)|].
    split; [rewrite sig_desenlazar by done; by rewrite decide_True|].
    split; [rewrite ant_desenlazar by done; by rewrite decide_True|].
    split; [done|].
    destruct (decide (primero s = Some c)) as [E|E];
      [by rewrite bool_decide_eq_true_2|by rewrite bool_decide_eq_false_2].
Qed.

Lemma eliminar_actual_correcto_witness :
  ∃ c s',
    actual lista_abc = Some c ∧
    eliminar_cancion_actual lista_abc = Ok (Some c, s') ∧
    tamanio s' = tamanio lista_abc - 1 ∧
    bien_formada s' ∧
    (tamanio lista_abc = 1 → actual s' = None ∧ primero s' = None ∧ tamanio s' = 0) ∧
    (tamanio lista_abc ≠ 1 →
       ∃ pv nx,
         ant (objetos lista_abc) c = Some pv ∧ sig (objetos lista_abc) c = Some nx ∧
         sig (objetos s') pv = Some nx ∧ ant (objetos s') nx = Some pv ∧
         actual s' = Some nx ∧
         primero s' =
           (if decide (primero lista_abc = Some c) then Some nx else primero lista_abc)).
Proof.
  apply (eliminar_actual_correcto lista_abc).
  - exists [0; 1; 2]%nat, 0%nat. exact lista_abc_anillo.
  - vm_compute. discriminate.
Defined.

(** C3: in every state reachable from the empty playlist, each node of the
    ring is the [anterior] of its [siguiente] and the [siguiente] of its
    [anterior], both of which are in the ring too, and following
    [siguiente] as many times as [__len__] returns leads back to it. *)
Theorem anillo_invariante (s : estado) (a : ref) :
  alcanzable s → en_anillo s a →
  (∃ nx pv,
     sig (objetos s) a = Some nx ∧ ant (objetos s) nx = Some a ∧
     ant (objetos s) a = Some pv ∧ sig (objetos s) pv = Some a ∧
     en_anillo s nx ∧ en_anillo s pv) ∧
  (∃ n, __len__ s = Ok (n, s) ∧
        iterar (sig (objetos s)) (Z.to_nat n) a = Some a).
Proof.
  intros Halc Ha. destruct (alcanzable_bien_formada s Halc) as (l & k & Hs).
  apply (en_anillo_lista s l k a Hs) in Ha.
  apply list_elem_of_lookup in Ha as [i Hi].
  pose proof (lookup_lt_Some _ _ _ Hi) as Hlt.
  destruct (lookup_lt_is_Some_2 l (nxt (length l) i)) as [nx Hnx]; [by apply nxt_lt|].
  destruct (lookup_lt_is_Some_2 l (prv (length l) i)) as [pv Hpv]; [by apply prv_lt|].
  split.
  - exists nx, pv.
    split; [by rewrite (an_sig _ _ _ Hs i a Hi)|].
    split; [by rewrite (an_ant _ _ _ Hs _ nx Hnx), prv_nxt|].
    split; [by rewrite (an_ant _ _ _ Hs i a Hi)|].
    split; [by rewrite (an_sig _ _ _ Hs _ pv Hpv), nxt_prv|].
    split; apply (en_anillo_lista s l k _ Hs), list_elem_of_lookup; eauto.
  - exists (tamanio s). split; [done|].
    rewrite (an_tamanio _ _ _ Hs), Nat2Z.id.
    by rewrite (iterar_sig_anillo s l k _ i a Hs Hi), saltar_nxt_vuelta.
Qed.

Lemma anillo_invariante_witness :
  (∃ nx pv,
     sig (objetos lista_abc) 2%nat = Some nx ∧ ant (objetos lista_abc) nx = Some 2%nat ∧
     ant (objetos lista_abc) 2%nat = Some pv ∧ sig (objetos lista_abc) pv = Some 2%nat ∧
     en_anillo lista_abc nx ∧ en_anillo lista_abc pv) ∧
  (∃ n, __len__ lista_abc = Ok (n, lista_abc) ∧
        iterar (sig (objetos lista_abc)) (Z.to_nat n) 2%nat = Some 2%nat).
Proof.
  apply (anillo_invariante lista_abc 2%nat).
  - exact lista_abc_alcanzable.
  - exists 0%nat, 2%nat. split; reflexivity.
Defined.

(** C4: in every state reachable from the empty playlist, the size is 0
    exactly when the cursor is [None], and the cursor is [None] exactly when
    the head is [None]. *)
Theorem vacia_equivalencias (s : estado) :
  alcanzable s →
  (tamanio s = 0 ↔ actual s = None) ∧ (actual s = None ↔ primero s = None).
Proof.
  intros Halc. destruct (alcanzable_bien_formada s Halc) as (l & k & Hs).
  rewrite (anillo_tamanio_0 s l k Hs), (an_actual _ _ _ Hs), (an_primero _ _ _ Hs).
  destruct (an_cursor _ _ _ Hs) as [Hk|[-> ->]]; [|done].
  rewrite !lookup_ge_None. destruct l; simpl in *; [lia|].
  repeat split; (done || lia).
Qed.

Lemma vacia_equivalencias_witness :
  (tamanio lista_abc = 0 ↔ actual lista_abc = None) ∧
  (actual lista_abc = None ↔ primero lista_abc = None).
Proof. apply (vacia_equivalencias lista_abc). exact lista_abc_alcanzable. Defined.

(** C5: while the size is 0, [eliminar_cancion_actual], [siguiente_cancion]
    and [cancion_anterior] return [None], [obtener_todas_las_canciones]
    returns the empty list whatever its loop budget, and none of the four
    changes the state. *)
Theorem vacia_sin_efecto (s : estado) :
  tamanio s = 0 →
  eliminar_cancion_actual s = Ok (None, s) ∧
  siguiente_cancion s = Ok (None, s) ∧
  cancion_anterior s = Ok (None, s) ∧
  (∀ fuel, obtener_todas_las_canciones fuel s = Ok ([], s)).
Proof.
  intros Ht. split; [by apply eliminar_vacia|].
  split; [by apply siguiente_vacia|].
  split; [by apply anterior_vacia|].
  intros fuel. by apply todas_vacia.
Qed.

Lemma vacia_sin_efecto_witness :
  (actual ListaReproduccion__init__ = None ∧
   primero ListaReproduccion__init__ = None) ∧
  eliminar_cancion_actual ListaReproduccion__init__ = Ok (None, ListaReproduccion__init__) ∧
  siguiente_cancion ListaReproduccion__init__ = Ok (None, ListaReproduccion__init__) ∧
  cancion_anterior ListaReproduccion__init__ = Ok (None, ListaReproduccion__init__) ∧
  (∀ fuel, obtener_todas_las_canciones fuel ListaReproduccion__init__
           = Ok ([], ListaReproduccion__init__)).
Proof.
  split; [split; reflexivity|].
  apply (vacia_sin_efecto ListaReproduccion__init__). reflexivity.
Defined.

Lemma anillo_extremos s l k :
  anillo s l k → l ≠ [] →
  ∃ p u, primero s = Some p ∧ ant (objetos s) p = Some u ∧
         (u < length (objetos s))%nat.
Proof.
  intros Hs Hl.
  assert (0 < length l)%nat as Hn by (destruct l; simpl; [done|lia]).
  destruct (lookup_lt_is_Some_2 l 0 Hn) as [p Hp].
  destruct (lookup_lt_is_Some_2 l (prv (length l) 0)) as [u Hu]; [by apply prv_lt|].
  exists p, u. split; [by rewrite (an_primero _ _ _ Hs)|].
  split; [by rewrite (an_ant _ _ _ Hs 0%nat p Hp)|].
  by eapply anillo_ref_lt.
Qed.

(** C6: [agregar_cancion] on a well-formed playlist succeeds; when the
    playlist is not empty the cursor is left as it was and the same call
    with any other cursor returns the same node and the same state up to
    that cursor; when it is empty the new node becomes cursor and head. *)
Theorem agregar_no_mueve_cursor (t a : string) (d : Z) (r : string) (s : estado) :
  bien_formada s →
  ∃ n s',
    agregar_cancion t a d r s = Ok (n, s') ∧
    (tamanio s ≠ 0 →
       actual s' = actual s ∧
       ∀ c, agregar_cancion t a d r (con_actual c s) = Ok (n, con_actual c s')) ∧
    (tamanio s = 0 → actual s' = Some n ∧ primero s' = Some n).
Proof.
  intros (l & k & Hs).
  destruct (decide (l = [])) as [->|Hl].
  - assert (tamanio s = 0) as Ht by by apply (anillo_tamanio_0 s [] k).
    eexists _, _. split; [by apply agregar_vacia|]. split; [done|].
    intros _. by cbn.
  - assert (tamanio s ≠ 0) as Ht by by rewrite (anillo_tamanio_0 s l k Hs).
    destruct (anillo_extremos s l k Hs Hl) as (p & u & Hp & Hu & Hult).
    eexists _, _. split; [by apply (agregar_no_vacia t a d r s p u)|].
    split; [|done]. intros _. split; [done|]. intros c.
    by rewrite (agregar_no_vacia t a d r (con_actual c s) p u).
Qed.

Lemma agregar_no_mueve_cursor_witness :
  ∃ n s',
    agregar_cancion "D" "y" 0 "d.mp3" lista_abc = Ok (n, s') ∧
    (tamanio lista_abc ≠ 0 →
       actual s' = actual lista_abc ∧
       ∀ c, agregar_cancion "D" "y" 0 "d.mp3" (con_actual c lista_abc)
            = Ok (n, con_actual c s')) ∧
    (tamanio lista_abc = 0 → actual s' = Some n ∧ primero s' = Some n).
Proof.
  apply (agregar_no_mueve_cursor "D" "y" 0 "d.mp3" lista_abc).
  exists [0; 1; 2]%nat, 0%nat. exact lista_abc_anillo.
Defined.

(** C7: on a well-formed non-empty playlist, [siguiente_cancion] followed by
    [cancion_anterior], and [cancion_anterior] followed by
    [siguiente_cancion], both succeed, the second call returns the node the
    cursor was on before the first, and the final state is the initial one. *)
Theorem siguiente_anterior_identidad (s : estado) :
  bien_formada s → tamanio s ≠ 0 →
  (∃ c s1, siguiente_cancion s = Ok (c, s1) ∧
           cancion_anterior s1 = Ok (actual s, s)) ∧
  (∃ c s1, cancion_anterior s = Ok (c, s1) ∧
           siguiente_cancion s1 = Ok (actual s, s)).
Proof.
  intros (l & k & Hs) Ht.
  assert (l ≠ []) as Hl by by rewrite <- (anillo_tamanio_0 s l k Hs).
  assert (k < length l)%nat as Hk.
  { destruct (an_cursor _ _ _ Hs) as [H|[H _]]; [done|by destruct Hl]. }
  pose proof (an_actual _ _ _ Hs) as Hc.
  split.
  - destruct (anillo_siguiente s l k Hs Hl) as [Hrun Hs1].
    destruct (anillo_anterior _ l _ Hs1 Hl) as [Hrun2 _].
    eexists _, _. split; [exact Hrun|]. rewrite Hrun2.
    cbn [objetos actual primero tamanio]. rewrite prv_nxt, <- Hc by done.
    by destruct s.
  - destruct (anillo_anterior s l k Hs Hl) as [Hrun Hs1].
    destruct (anillo_siguiente _ l _ Hs1 Hl) as [Hrun2 _].
    eexists _, _. split; [exact Hrun|]. rewrite Hrun2.
    cbn [objetos actual primero tamanio]. rewrite nxt_prv, <- Hc by done.
    by destruct s.
Qed.

Lemma siguiente_anterior_identidad_witness :
  (∃ c s1, siguiente_cancion lista_abc = Ok (c, s1) ∧
           cancion_anterior s1 = Ok (actual lista_abc, lista_abc)) ∧
  (∃ c s1, cancion_anterior lista_abc = Ok (c, s1) ∧
           siguiente_cancion s1 = Ok (actual lista_abc, lista_abc)).
Proof.
  apply (siguiente_anterior_identidad lista_abc).
  - exists [0; 1; 2]%nat, 0%nat. exact lista_abc_anillo.
  - vm_compute. discriminate.
Defined.

(** C8: on a well-formed non-empty playlist, as many [siguiente_cancion]
    calls as the size, and likewise as many [cancion_anterior] calls, all
    succeed and end in the state they started from, cursor included. *)
Theorem vuelta_completa (s : estado) :
  bien_formada s → tamanio s ≠ 0 →
  repetir siguiente_cancion (Z.to_nat (tamanio s)) s = Ok (tt, s) ∧
  repetir cancion_anterior (Z.to_nat (tamanio s)) s = Ok (tt, s).
Proof.
  intros (l & k & Hs) Ht.
  assert (l ≠ []) as Hl by by rewrite <- (anillo_tamanio_0 s l k Hs).
  assert (k < length l)%nat as Hk.
  { destruct (an_cursor _ _ _ Hs) as [H|[H _]]; [done|by destruct Hl]. }
  pose proof (an_actual _ _ _ Hs) as Hc.
  rewrite (an_tamanio _ _ _ Hs), Nat2Z.id.
  rewrite (repetir_siguiente s l k _ Hs Hl), (repetir_anterior s l k _ Hs Hl).
  rewrite saltar_nxt_vuelta, saltar_prv_vuelta, <- Hc by done.
  by destruct s.
Qed.

Lemma vuelta_completa_witness :
  repetir siguiente_cancion (Z.to_nat (tamanio lista_abc)) lista_abc = Ok (tt, lista_abc) ∧
  repetir cancion_anterior (Z.to_nat (tamanio lista_abc)) lista_abc = Ok (tt, lista_abc).
Proof.
  apply (vuelta_completa lista_abc).
  - exists [0; 1; 2]%nat, 0%nat. exact lista_abc_anillo.
  - vm_compute. discriminate.
Defined.

(** C9: on a well-formed playlist, whatever track data its nodes carry,
    [obtener_todas_las_canciones] returns as soon as its loop budget is at
    least the size; the result starts at the head, has as many nodes as the
    size, lists each node of the ring once, and the state is unchanged. *)
Theorem todas_termina (s : estado) :
  bien_formada s →
  ∃ ns,
    (∀ fuel, (Z.to_nat (tamanio s) ≤ fuel)%nat →
       obtener_todas_las_canciones fuel s = Ok (Some <$> ns, s)) ∧
    Z.of_nat (length ns) = tamanio s ∧
    ns !! 0%nat = primero s ∧
    NoDup ns ∧
    (∀ a, a ∈ ns ↔ en_anillo s a).
Proof.
  intros (l & k & Hs). exists l.
  split; [|split; [|split; [|split]]].
  - intros fuel Hfuel. apply (todas_anillo s l k); [done|].
    rewrite (an_tamanio _ _ _ Hs), Nat2Z.id in Hfuel. done.
  - by rewrite (an_tamanio _ _ _ Hs).
  - by rewrite (an_primero _ _ _ Hs).
  - apply (an_nodup _ _ _ Hs).
  - intros a. symmetry. by apply (en_anillo_lista s l k).
Qed.

Lemma todas_termina_witness :
  (datos <$> objetos lista_gemelas !! 0%nat = datos <$> objetos lista_gemelas !! 1%nat) ∧
  ∃ ns,
    (∀ fuel, (Z.to_nat (tamanio lista_gemelas) ≤ fuel)%nat →
       obtener_todas_las_canciones fuel lista_gemelas = Ok (Some <$> ns, lista_gemelas)) ∧
    Z.of_nat (length ns) = tamanio lista_gemelas ∧
    ns !! 0%nat = primero lista_gemelas ∧
    NoDup ns ∧
    (∀ a, a ∈ ns ↔ en_anillo lista_gemelas a).
Proof.
  split; [reflexivity|].
  apply (todas_termina lista_gemelas).
  exists [0; 1]%nat, 0%nat. exact lista_gemelas_anillo.
Defined.

(** Two nodes with the same track data are both listed. *)
Example todas_gemelas :
  obtener_todas_las_canciones 2 lista_gemelas
  = Ok ([Some 0%nat; Some 1%nat], lista_gemelas).
Proof. reflexivity. Qed.

Lemma elem_of_delete_otro (l : list ref) (k j : nat) (x : ref) :
  l !! j = Some x → j ≠ k → x ∈ delete k l.
Proof.
  intros Hj Hne. apply list_elem_of_lookup.
  destruct (decide (j < k)%nat).
  - exists j. by rewrite list_lookup_delete_lt.
  - exists (pred j). rewrite list_lookup_delete_ge by lia.
    by replace (S (pred j)) with j by lia.
Qed.

(** C10: on a well-formed non-empty playlist the object of the node that
    [eliminar_cancion_actual] returns is the same before and after the
    call, track data and links alike; when there were other nodes its links
    still name its two former neighbours, which are other nodes and remain
    in the ring. *)
Theorem eliminar_no_muta (s : estado) :
  bien_formada s → tamanio s ≠ 0 →
  ∃ c s',
    eliminar_cancion_actual s = Ok (Some c, s') ∧
    is_Some (objetos s !! c) ∧
    objetos s' !! c = objetos s !! c ∧
    (tamanio s ≠ 1 →
       ∃ pv nx,
         ant (objetos s) c = Some pv ∧ sig (objetos s) c = Some nx ∧
         ant (objetos s') c = Some pv ∧ sig (objetos s') c = Some nx ∧
         pv ≠ c ∧ nx ≠ c ∧ en_anillo s' pv ∧ en_anillo s' nx ∧
         ¬ en_anillo s' c).
Proof.
  intros (l & k & Hs) Ht. pose proof (an_tamanio _ _ _ Hs) as Hlen.
  destruct (decide (length l = 1%nat)) as [Hn|Hn].
  - destruct (anillo_eliminar_unico s l k Hs Hn) as (c & -> & Hc & Hrun & Hs').
    exists c, (mkEstado (objetos s) None None (tamanio s - 1)).
    split; [done|]. split.
    { apply lookup_lt_is_Some. by apply (anillo_ref_lt s [c] k 0%nat c Hs). }
    split; [done|]. simpl in Hlen. lia.
  - destruct (anillo_eliminar_varios s l k Hs) as
      (c & pv & nx & Hc & Hpv & Hnx & Hpvc & Hnxc & Hrun & Hs'); [lia|].
    pose proof (an_nodup _ _ _ Hs) as Hnd.
    pose proof (anillo_ref_lt _ _ _ _ _ Hs Hc) as Hclt.
    pose proof (anillo_ref_lt _ _ _ _ _ Hs Hpv) as Hpvlt.
    pose proof (anillo_ref_lt _ _ _ _ _ Hs Hnx) as Hnxlt.
    pose proof (an_ant _ _ _ Hs k c Hc) as Hant. rewrite Hpv in Hant.
    pose proof (an_sig _ _ _ Hs k c Hc) as Hsig. rewrite Hnx in Hsig.
    eexists c, _. split; [exact Hrun|]. cbn [objetos].
    split; [by apply lookup_lt_is_Some|].
    split; [by apply lookup_desenlazar_otro|].
    intros _. exists pv, nx. do 2 (split; [done|]).
    split; [rewrite ant_desenlazar by done; by rewrite decide_False|].
    split; [rewrite sig_desenlazar by done; by rewrite decide_False|].
    do 2 (split; [done|]).
    rewrite !(en_anillo_lista _ _ _ _ Hs').
    split; [|split].
    + apply (elem_of_delete_otro l k _ pv Hpv). intros E. rewrite E in Hpv. congruence.
    + apply (elem_of_delete_otro l k _ nx Hnx). intros E. rewrite E in Hnx. congruence.
    + intros Hin. apply list_elem_of_lookup in Hin as [i Hi].
      rewrite list_lookup_delete in Hi.
      pose proof (NoDup_lookup _ _ _ _ Hnd Hi Hc). case_decide; lia.
Qed.

Lemma eliminar_no_muta_witness :
  ∃ c s',
    eliminar_cancion_actual lista_abc = Ok (Some c, s') ∧
    is_Some (objetos lista_abc !! c) ∧
    objetos s' !! c = objetos lista_abc !! c ∧
    (tamanio lista_abc ≠ 1 →
       ∃ pv nx,
         ant (objetos lista_abc) c = Some pv ∧ sig (objetos lista_abc) c = Some nx ∧
         ant (objetos s') c = Some pv ∧ sig (objetos s') c = Some nx ∧
         pv ≠ c ∧ nx ≠ c ∧ en_anillo s' pv ∧ en_anillo s' nx ∧
         ¬ en_anillo s' c).
Proof.
  apply (eliminar_no_muta lista_abc).
  - exists [0; 1; 2]%nat, 0%nat. exact lista_abc_anillo.
  - vm_compute. discriminate.
Defined.

(** * Further properties of models/playlist.py *)

Section Recorrido.
Implicit Types (s : estado) (l : list ref) (ls : list (option ref)).
Local Open Scope nat_scope.

(** A larger loop budget does not change a result. *)
Lemma mientras_mono fuel fuel' nodo canciones s r :
  mientras fuel nodo canciones s = Ok r → fuel ≤ fuel' →
  mientras fuel' nodo canciones s = Ok r.
Proof.
  revert fuel' nodo canciones.
  induction fuel as [|fuel IH]; intros fuel' nodo canciones Hrun Hle; [done|].
  destruct fuel' as [|fuel']; [lia|].
  cbn [mientras] in *. unfold bind at 1 in Hrun. unfold bind at 1.
  cbn [leer_primero] in *.
  case_bool_decide; [|done].
  cbn zeta in *. unfold bind, leer_siguiente, bind, nodo_de, ret in *.
  destruct nodo as [x|]; [|done]. destruct (objetos s !! x); [|done].
  apply IH; [done|lia].
Qed.

Lemma todas_mono fuel fuel' s r :
  obtener_todas_las_canciones fuel s = Ok r → fuel ≤ fuel' →
  obtener_todas_las_canciones fuel' s = Ok r.
Proof.
  unfold obtener_todas_las_canciones.
  rewrite !(bind_ok _ _ _ _ _ (esta_vacia_ok s)).
  case_bool_decide; [done|].
  cbn zeta. unfold bind, leer_primero, leer_siguiente, bind, nodo_de, ret.
  destruct (primero s) as [x|]; [|done]. destruct (objetos s !! x); [|done].
  apply mientras_mono.
Qed.

(** Whatever budget it succeeds with, the traversal of a ring is its list. *)
Lemma todas_lista s l k fuel ls s0 :
  anillo s l k → obtener_todas_las_canciones fuel s = Ok (ls, s0) →
  ls = Some <$> l ∧ s0 = s.
Proof.
  intros Hs Hrun.
  pose proof (todas_mono _ (fuel `max` length l) _ _ Hrun) as H1.
  rewrite (todas_anillo s l k) in H1 by (done || lia).
  specialize (H1 ltac:(lia)). by injection H1 as <- <-.
Qed.

(** The position of the cursor in the traversal is its position in the list. *)
Lemma posicion_cursor s l k j :
  anillo s l k → l ≠ [] → (Some <$> l) !! j = Some (actual s) → j = k.
Proof.
  intros Hs Hl Hj.
  assert (k < length l) as Hk.
  { destruct (an_cursor _ _ _ Hs) as [H|[H _]]; [done|by destruct Hl]. }
  destruct (lookup_lt_is_Some_2 l k Hk) as [c Hc].
  rewrite (an_actual _ _ _ Hs), Hc, list_lookup_fmap in Hj.
  destruct (l !! j) as [c'|] eqn:Hj'; simplify_eq/=.
  by eapply NoDup_lookup; [apply (an_nodup _ _ _ Hs)|..].
Qed.

Lemma nxt_mod n i : i < n → nxt n i = S i mod n.
Proof.
  intros Hi. unfold nxt. case_decide as H.
  - by rewrite H, Nat.Div0.mod_same.
  - rewrite Nat.mod_small; lia.
Qed.

Lemma prv_mod n i : i < n → prv n i = (i + n - 1) mod n.
Proof.
  intros Hi. unfold prv. case_decide as H.
  - subst i. rewrite Nat.mod_small; lia.
  - replace (i + n - 1) with (pred i + 1 * n) by lia.
    rewrite Nat.Div0.mod_add, Nat.mod_small; lia.
Qed.
End Recorrido.

Section Nucleo.
Implicit Types (s : estado) (l : list ref) (ls : list (option ref)).
Local Open Scope nat_scope.

Lemma length_desenlazar pv nx h : length (desenlazar pv nx h) = length h.
Proof. unfold desenlazar. by rewrite !length_alter. Qed.

Lemma datos_desenlazar pv nx h x :
  datos <$> desenlazar pv nx h !! x = datos <$> h !! x.
Proof. unfold desenlazar. by rewrite datos_alter_ant, datos_alter_sig. Qed.

Lemma anillo_no_vacio s l k : anillo s l k → l ≠ [] → k < length l.
Proof.
  intros Hs Hl. destruct (an_cursor _ _ _ Hs) as [H|[H _]]; [done|by destruct Hl].
Qed.

Lemma iterar_ant_anillo s l k j i a :
  anillo s l k → l !! i = Some a →
  iterar (ant (objetos s)) j a = l !! saltar (prv (length l)) j i.
Proof.
  intros Hs. revert i a. induction j as [|j IH]; intros i a Hi; simpl; [done|].
  rewrite (an_ant _ _ _ Hs i a Hi).
  pose proof (lookup_lt_Some _ _ _ Hi) as Hlt.
  destruct (lookup_lt_is_Some_2 l (prv (length l) i)) as [b Hb]; [by apply prv_lt|].
  rewrite Hb. simpl. by apply IH.
Qed.

(** As many removals as there are nodes empty the playlist. *)
Lemma repetir_eliminar s l k :
  anillo s l k →
  ∃ s', repetir eliminar_cancion_actual (length l) s = Ok (tt, s') ∧
        anillo s' [] 0.
Proof.
  remember (length l) as n eqn:En. revert s l k En.
  induction n as [|n IH]; intros s l k En Hs.
  - destruct l; [|done]. exists s. split; [done|].
    destruct (an_cursor _ _ _ Hs) as [H|[_ ->]]; [simpl in H; lia|done].
  - cbn [repetir]. destruct (decide (length l = 1)) as [H1|H1].
    + destruct (anillo_eliminar_unico s l k Hs H1) as (c & _ & _ & Hel & Hs').
      rewrite (bind_ok _ _ _ _ _ Hel). apply (IH _ [] 0); [simpl; lia|done].
    + destruct (anillo_eliminar_varios s l k Hs) as
        (c & pv & nx & Hc & _ & _ & _ & _ & Hel & Hs'); [lia|].
      rewrite (bind_ok _ _ _ _ _ Hel). eapply IH; [|exact Hs'].
      rewrite length_delete by eauto. lia.
Qed.
End Nucleo.

(** X1: on a well-formed playlist whose traversal is [ls], an append
    returns a node that was not in [ls]; the traversal becomes [ls] followed
    by that node, the new node carries the given track data, and the head
    of a non-empty playlist stays the head. *)
Theorem agregar_al_final (t a : string) (d : Z) (r : string)
    (s s0 : estado) (fuel0 : nat) (ls : list (option ref)) :
  bien_formada s →
  obtener_todas_las_canciones fuel0 s = Ok (ls, s0) →
  ∃ n s',
    agregar_cancion t a d r s = Ok (n, s') ∧
    (Some n ∉ ls) ∧
    bien_formada s' ∧
    (∀ fuel, (length ls < fuel)%nat →
       obtener_todas_las_canciones fuel s' = Ok (ls ++ [Some n], s')) ∧
    datos <$> objetos s' !! n = Some (t, a, d, r) ∧
    (tamanio s ≠ 0 → primero s' = primero s).
Proof.
  intros (l & k & Hs) Hrun.
  destruct (todas_lista s l k _ _ _ Hs Hrun) as [-> ->].
  destruct (agregar_datos t a d r s l k Hs) as (s' & Hag & Hs' & Hd & Hlen).
  exists (length (objetos s)), s'. split; [done|].
  split; [|split; [by exists (l ++ [length (objetos s)]), k|split; [|split]]].
  - intros Hin. apply list_elem_of_fmap in Hin as (x & [= <-] & Hx).
    apply list_elem_of_lookup in Hx as [i Hi].
    pose proof (anillo_ref_lt _ _ _ _ _ Hs Hi). lia.
  - intros fuel Hfuel. rewrite length_fmap in Hfuel.
    rewrite (todas_anillo s' _ k fuel Hs').
    + by rewrite fmap_app.
    + rewrite length_app. simpl. lia.
  - rewrite <- list_lookup_fmap, Hd.
    rewrite lookup_app_r by (rewrite length_fmap; lia).
    rewrite length_fmap. by replace (_ - _)%nat with 0%nat by lia.
  - intros Ht. rewrite (an_primero _ _ _ Hs'), (an_primero _ _ _ Hs).
    apply lookup_app_l. destruct l; simpl; [|lia].
    by rewrite (anillo_tamanio_0 s [] k Hs) in Ht.
Qed.

Lemma agregar_al_final_witness :
  ∃ n s',
    agregar_cancion "D" "y" 9 "d.mp3" lista_abc = Ok (n, s') ∧
    (Some n ∉ [Some 0; Some 1; Some 2]%nat) ∧
    bien_formada s' ∧
    (∀ fuel, (3 < fuel)%nat →
       obtener_todas_las_canciones fuel s'
       = Ok ([Some 0; Some 1; Some 2]%nat ++ [Some n], s')) ∧
    datos <$> objetos s' !! n = Some ("D", "y", 9, "d.mp3") ∧
    (tamanio lista_abc ≠ 0 → primero s' = primero lista_abc).
Proof.
  apply (agregar_al_final "D" "y" 9 "d.mp3" lista_abc lista_abc 3%nat).
  - exists [0; 1; 2]%nat, 0%nat. exact lista_abc_anillo.
  - reflexivity.
Defined.

(** X2: when the cursor is the [k]-th node of the traversal [ls],
    [eliminar_cancion_actual] returns it and the traversal becomes [ls]
    without its [k]-th entry, the others in the same order; the cursor is
    then the entry that followed, the first one after the last, and [None]
    when nothing is left. *)
Theorem eliminar_conserva_orden (s s0 : estado) (fuel0 k : nat)
    (ls : list (option ref)) :
  bien_formada s →
  obtener_todas_las_canciones fuel0 s = Ok (ls, s0) →
  ls !! k = Some (actual s) →
  ∃ s',
    eliminar_cancion_actual s = Ok (actual s, s') ∧
    (∀ fuel, (length ls - 1 ≤ fuel)%nat →
       obtener_todas_las_canciones fuel s' = Ok (delete k ls, s')) ∧
    (length ls = 1%nat → actual s' = None) ∧
    (length ls ≠ 1%nat → ls !! (S k mod length ls)%nat = Some (actual s')).
Proof.
  intros (l & k0 & Hs) Hrun Hk.
  destruct (todas_lista s l k0 _ _ _ Hs Hrun) as [-> ->].
  assert (l ≠ []) as Hl by (intros ->; by rewrite fmap_nil, lookup_nil in Hk).
  pose proof (posicion_cursor s l k0 k Hs Hl Hk) as ->.
  pose proof (anillo_no_vacio s l k0 Hs Hl) as Hk0.
  rewrite length_fmap.
  destruct (decide (length l = 1%nat)) as [Hn|Hn].
  - destruct (anillo_eliminar_unico s l k0 Hs Hn) as (c & -> & Hc & Hel & Hs').
    eexists. rewrite Hc. split; [exact Hel|].
    assert (k0 = 0)%nat as -> by (simpl in Hk0; lia).
    split; [|split; [done|intros H; by destruct H]].
    intros fuel _. apply todas_vacia, (an_tamanio _ _ _ Hs').
  - destruct (anillo_eliminar_varios s l k0 Hs) as
      (c & pv & nx & Hc & Hpv & Hnx & _ & _ & Hel & Hs'); [lia|].
    eexists. rewrite (an_actual _ _ _ Hs), Hc. split; [exact Hel|].
    split; [|split; [done|]].
    + intros fuel Hfuel. rewrite (todas_anillo _ _ _ fuel Hs').
      * cbn [objetos actual primero tamanio]. f_equal. f_equal.
        apply list_eq. intros i.
        by rewrite list_lookup_fmap, !list_lookup_delete, list_lookup_fmap.
      * rewrite length_delete by eauto. lia.
    + intros _. cbn [actual]. rewrite list_lookup_fmap, <- nxt_mod, Hnx by done. done.
Qed.

Lemma eliminar_conserva_orden_witness :
  ∃ s',
    eliminar_cancion_actual lista_abc = Ok (actual lista_abc, s') ∧
    (∀ fuel, (3 - 1 ≤ fuel)%nat →
       obtener_todas_las_canciones fuel s'
       = Ok (delete 0%nat [Some 0; Some 1; Some 2]%nat, s')) ∧
    (3 = 1 → actual s' = None)%nat ∧
    (3 ≠ 1 → [Some 0; Some 1; Some 2] !! (1 mod 3) = Some (actual s'))%nat.
Proof.
  apply (eliminar_conserva_orden lista_abc lista_abc 3%nat 0%nat
           [Some 0; Some 1; Some 2]%nat).
  - exists [0; 1; 2]%nat, 0%nat. exact lista_abc_anillo.
  - reflexivity.
  - reflexivity.
Defined.

(** X3: when the cursor is the [k]-th node of the traversal [ls],
    [siguiente_cancion] returns the entry at position [(k + 1) mod
    length ls], makes it the cursor, and changes nothing else. *)
Theorem siguiente_en_recorrido (s s0 : estado) (fuel0 k : nat)
    (ls : list (option ref)) :
  bien_formada s →
  obtener_todas_las_canciones fuel0 s = Ok (ls, s0) →
  ls !! k = Some (actual s) →
  ∃ c,
    ls !! (S k mod length ls)%nat = Some c ∧
    siguiente_cancion s = Ok (c, con_actual c s).
Proof.
  intros (l & k0 & Hs) Hrun Hk.
  destruct (todas_lista s l k0 _ _ _ Hs Hrun) as [-> ->].
  assert (l ≠ []) as Hl by (intros ->; by rewrite fmap_nil, lookup_nil in Hk).
  pose proof (posicion_cursor s l k0 k Hs Hl Hk) as ->.
  pose proof (anillo_no_vacio s l k0 Hs Hl) as Hk0.
  destruct (anillo_siguiente s l k0 Hs Hl) as [Hsi _]. cbn zeta in Hsi.
  destruct (lookup_lt_is_Some_2 l (nxt (length l) k0)) as [c Hc]; [by apply nxt_lt|].
  exists (Some c). rewrite length_fmap, list_lookup_fmap, <- nxt_mod, Hc by done.
  split; [done|]. by rewrite Hsi, Hc.
Qed.

Lemma siguiente_en_recorrido_witness :
  ∃ c,
    [Some 0; Some 1; Some 2]%nat !! (1 mod 3)%nat = Some c ∧
    siguiente_cancion lista_abc = Ok (c, con_actual c lista_abc).
Proof.
  apply (siguiente_en_recorrido lista_abc lista_abc 3%nat 0%nat
           [Some 0; Some 1; Some 2]%nat).
  - exists [0; 1; 2]%nat, 0%nat. exact lista_abc_anillo.
  - reflexivity.
  - reflexivity.
Defined.

(** X4: when the cursor is the [k]-th node of the traversal [ls],
    [cancion_anterior] returns the entry at position [(k + length ls - 1)
    mod length ls], makes it the cursor, and changes nothing else. *)
Theorem anterior_en_recorrido (s s0 : estado) (fuel0 k : nat)
    (ls : list (option ref)) :
  bien_formada s →
  obtener_todas_las_canciones fuel0 s = Ok (ls, s0) →
  ls !! k = Some (actual s) →
  ∃ c,
    ls !! ((k + length ls - 1) mod length ls)%nat = Some c ∧
    cancion_anterior s = Ok (c, con_actual c s).
Proof.
  intros (l & k0 & Hs) Hrun Hk.
  destruct (todas_lista s l k0 _ _ _ Hs Hrun) as [-> ->].
  assert (l ≠ []) as Hl by (intros ->; by rewrite fmap_nil, lookup_nil in Hk).
  pose proof (posicion_cursor s l k0 k Hs Hl Hk) as ->.
  pose proof (anillo_no_vacio s l k0 Hs Hl) as Hk0.
  destruct (anillo_anterior s l k0 Hs Hl) as [Han _]. cbn zeta in Han.
  destruct (lookup_lt_is_Some_2 l (prv (length l) k0)) as [c Hc]; [by apply prv_lt|].
  exists (Some c). rewrite length_fmap, list_lookup_fmap, <- prv_mod, Hc by done.
  split; [done|]. by rewrite Han, Hc.
Qed.

Lemma anterior_en_recorrido_witness :
  ∃ c,
    [Some 0; Some 1; Some 2]%nat !! ((0 + 3 - 1) mod 3)%nat = Some c ∧
    cancion_anterior lista_abc = Ok (c, con_actual c lista_abc).
Proof.
  apply (anterior_en_recorrido lista_abc lista_abc 3%nat 0%nat
           [Some 0; Some 1; Some 2]%nat).
  - exists [0; 1; 2]%nat, 0%nat. exact lista_abc_anillo.
  - reflexivity.
  - reflexivity.
Defined.

(** X5: on a well-formed playlist, as many [eliminar_cancion_actual]
    calls as the size all succeed and leave the playlist empty: size 0,
    no cursor, no head, an empty traversal, and a further removal returns
    [None]. *)
Theorem eliminar_hasta_vaciar (s : estado) :
  bien_formada s →
  ∃ s',
    repetir eliminar_cancion_actual (Z.to_nat (tamanio s)) s = Ok (tt, s') ∧
    tamanio s' = 0 ∧ actual s' = None ∧ primero s' = None ∧
    (∀ fuel, obtener_todas_las_canciones fuel s' = Ok ([], s')) ∧
    eliminar_cancion_actual s' = Ok (None, s').
Proof.
  intros (l & k & Hs).
  destruct (repetir_eliminar s l k Hs) as (s' & Hrun & Hs').
  exists s'. rewrite (an_tamanio _ _ _ Hs), Nat2Z.id.
  pose proof (an_tamanio _ _ _ Hs') as Ht. simpl in Ht.
  split; [done|]. split; [done|].
  split; [by rewrite (an_actual _ _ _ Hs')|].
  split; [by rewrite (an_primero _ _ _ Hs')|].
  split; [intros fuel; by apply todas_vacia|by apply eliminar_vacia].
Qed.

Lemma eliminar_hasta_vaciar_witness :
  ∃ s',
    repetir eliminar_cancion_actual (Z.to_nat (tamanio lista_abc)) lista_abc
    = Ok (tt, s') ∧
    tamanio s' = 0 ∧ actual s' = None ∧ primero s' = None ∧
    (∀ fuel, obtener_todas_las_canciones fuel s' = Ok ([], s')) ∧
    eliminar_cancion_actual s' = Ok (None, s').
Proof.
  apply (eliminar_hasta_vaciar lista_abc).
  exists [0; 1; 2]%nat, 0%nat. exact lista_abc_anillo.
Defined.

(** X6: in every state reachable from the empty playlist, a cursor that
    is not [None] is a node of the ring, and so is listed by the
    traversal. *)
Theorem actual_en_anillo (s : estado) (c : ref) :
  alcanzable s → actual s = Some c →
  en_anillo s c ∧
  ∀ fuel, (Z.to_nat (tamanio s) ≤ fuel)%nat →
    ∃ ls, obtener_todas_las_canciones fuel s = Ok (ls, s) ∧ Some c ∈ ls.
Proof.
  intros Halc Hc. destruct (alcanzable_bien_formada s Halc) as (l & k & Hs).
  rewrite (an_actual _ _ _ Hs) in Hc.
  assert (c ∈ l) as Hin by (apply list_elem_of_lookup; eauto).
  split; [by apply (en_anillo_lista s l k c Hs)|].
  intros fuel Hfuel. exists (Some <$> l). split.
  - apply (todas_anillo s l k); [done|].
    rewrite (an_tamanio _ _ _ Hs), Nat2Z.id in Hfuel. done.
  - apply list_elem_of_fmap. eauto.
Qed.

Lemma actual_en_anillo_witness :
  en_anillo lista_abc 0%nat ∧
  ∀ fuel, (Z.to_nat (tamanio lista_abc) ≤ fuel)%nat →
    ∃ ls, obtener_todas_las_canciones fuel lista_abc = Ok (ls, lista_abc) ∧
          Some 0%nat ∈ ls.
Proof.
  apply (actual_en_anillo lista_abc 0%nat).
  - exact lista_abc_alcanzable.
  - reflexivity.
Defined.

(** X7: a call on a well-formed playlist never removes an object from
    the store and never changes the track data (title, artist, duration,
    path) of an object that was there before the call. *)
Theorem datos_inmutables (c : llamada) (s s' : estado) (v : valor) :
  bien_formada s → ejecutar c s = Ok (v, s') →
  (length (objetos s) ≤ length (objetos s'))%nat ∧
  ∀ x, (x < length (objetos s))%nat →
       datos <$> objetos s' !! x = datos <$> objetos s !! x.
Proof.
  intros (l & k & Hs) Hrun.
  assert (∀ s1, objetos s1 = objetos s →
    (length (objetos s) ≤ length (objetos s1))%nat ∧
    ∀ x, (x < length (objetos s))%nat →
         datos <$> objetos s1 !! x = datos <$> objetos s !! x) as Higual.
  { intros s1 ->. split; [lia|done]. }
  destruct c as [t a d r| | | | | |fuel]; simpl in Hrun.
  - destruct (anillo_agregar t a d r s l k Hs) as (s1 & Hag & _ & Hd & _).
    destruct (agregar_datos t a d r s l k Hs) as (s2 & Hag2 & _ & _ & Hlen).
    rewrite Hag in Hag2. injection Hag2 as <-.
    rewrite (bind_ok _ _ _ _ _ Hag) in Hrun. injection Hrun as _ <-.
    split; [lia|]. intros x Hx. by rewrite Hd, lookup_app_l.
  - pose proof (an_tamanio _ _ _ Hs) as Ht.
    destruct (decide (length l = 0%nat)) as [Hn|Hn0].
    { assert (tamanio s = 0) as Ht0 by lia.
      rewrite (bind_ok _ _ _ _ _ (eliminar_vacia s Ht0)) in Hrun.
      injection Hrun as _ <-. by apply Higual. }
    destruct (decide (length l = 1%nat)) as [Hn1|Hn1].
    + destruct (anillo_eliminar_unico s l k Hs Hn1) as (c & _ & _ & Hel & _).
      rewrite (bind_ok _ _ _ _ _ Hel) in Hrun. injection Hrun as _ <-.
      by apply Higual.
    + destruct (anillo_eliminar_varios s l k Hs) as
        (c & pv & nx & _ & _ & _ & _ & _ & Hel & _); [lia|].
      rewrite (bind_ok _ _ _ _ _ Hel) in Hrun. injection Hrun as _ <-.
      cbn [objetos]. rewrite length_desenlazar. split; [lia|].
      intros x _. apply datos_desenlazar.
  - destruct (decide (l = [])) as [->|Hl].
    + rewrite (bind_ok _ _ _ _ _ (siguiente_vacia s (an_tamanio _ _ _ Hs))) in Hrun.
      injection Hrun as _ <-. by apply Higual.
    + destruct (anillo_siguiente s l k Hs Hl) as [Hsi _].
      rewrite (bind_ok _ _ _ _ _ Hsi) in Hrun. injection Hrun as _ <-.
      by apply Higual.
  - destruct (decide (l = [])) as [->|Hl].
    + rewrite (bind_ok _ _ _ _ _ (anterior_vacia s (an_tamanio _ _ _ Hs))) in Hrun.
      injection Hrun as _ <-. by apply Higual.
    + destruct (anillo_anterior s l k Hs Hl) as [Hsi _].
      rewrite (bind_ok _ _ _ _ _ Hsi) in Hrun. injection Hrun as _ <-.
      by apply Higual.
  - injection Hrun as _ <-. by apply Higual.
  - injection Hrun as _ <-. by apply Higual.
  - unfold bind in Hrun.
    destruct (obtener_todas_las_canciones fuel s) as [[v0 s1]|] eqn:E; [|done].
    apply todas_estado in E. subst s1. injection Hrun as _ <-. by apply Higual.
Qed.

Lemma datos_inmutables_witness :
  (length (objetos lista_abc)
   ≤ length (objetos (mkEstado (desenlazar 2 1 (objetos lista_abc))
                               (Some 1%nat) (Some 1%nat) 2)))%nat ∧
  ∀ x, (x < length (objetos lista_abc))%nat →
       datos <$> objetos (mkEstado (desenlazar 2 1 (objetos lista_abc))
                                   (Some 1%nat) (Some 1%nat) 2) !! x
       = datos <$> objetos lista_abc !! x.
Proof.
  apply (datos_inmutables Eliminar lista_abc _ (VNodo (Some 0%nat))).
  - exists [0; 1; 2]%nat, 0%nat. exact lista_abc_anillo.
  - reflexivity.
Defined.

(** X8: in every state reachable from the empty playlist, following
    [anterior] from a node of the ring as many times as the size leads
    back to that node. *)
Theorem anterior_da_la_vuelta (s : estado) (a : ref) :
  alcanzable s → en_anillo s a →
  iterar (ant (objetos s)) (Z.to_nat (tamanio s)) a = Some a.
Proof.
  intros Halc Ha. destruct (alcanzable_bien_formada s Halc) as (l & k & Hs).
  apply (en_anillo_lista s l k a Hs) in Ha.
  apply list_elem_of_lookup in Ha as [i Hi].
  pose proof (lookup_lt_Some _ _ _ Hi) as Hlt.
  rewrite (an_tamanio _ _ _ Hs), Nat2Z.id.
  by rewrite (iterar_ant_anillo s l k _ i a Hs Hi), saltar_prv_vuelta.
Qed.

Lemma anterior_da_la_vuelta_witness :
  iterar (ant (objetos lista_abc)) (Z.to_nat (tamanio lista_abc)) 1%nat = Some 1%nat.
Proof.
  apply (anterior_da_la_vuelta lista_abc 1%nat).
  - exact lista_abc_alcanzable.
  - exists 0%nat, 1%nat. split; reflexivity.
Defined.

(** * models/node.py: the text of a node *)

Section Formato.
Implicit Types (s t : string) (n d : Z).

Lemma string_app_length s t :
  String.length (s +:+ t) = (String.length s + String.length t)%nat.
Proof. induction s as [|c s IH]; simpl; [done|by rewrite IH]. Qed.

(** Two texts with suffixes of the same length are equal part by part. *)
Lemma string_app_inj_r s1 s2 t1 t2 :
  String.length t1 = String.length t2 →
  s1 +:+ t1 = s2 +:+ t2 → s1 = s2 ∧ t1 = t2.
Proof.
  intros Hlen. revert s2.
  induction s1 as [|c1 s1 IH]; intros [|c2 s2] Heq.
  - done.
  - apply (f_equal String.length) in Heq.
    rewrite !string_app_length in Heq. simpl in Heq. lia.
  - apply (f_equal String.length) in Heq.
    rewrite !string_app_length in Heq. simpl in Heq. lia.
  - cbn [String.append] in Heq. injection Heq as -> Heq. destruct (IH _ Heq) as [-> ->]. done.
Qed.

(** The seconds of a duration always take exactly two digits. *)
Lemma dos_digitos_60 n :
  0 ≤ n < 60 →
  dos_digitos n =
    String (pretty_N_char (Z.to_N (n / 10)))
      (String (pretty_N_char (Z.to_N (n `mod` 10))) "").
Proof.
  intros Hn. destruct n as [|p|p]; [reflexivity| |lia].
  do 6 (try (destruct p as [p|p|]; try lia)); reflexivity.
Qed.

Lemma dos_digitos_60_inj n m :
  0 ≤ n < 60 → 0 ≤ m < 60 → dos_digitos n = dos_digitos m → n = m.
Proof.
  intros Hn Hm. rewrite !dos_digitos_60 by done. intros [= H1 H2].
  assert (∀ x, 0 ≤ x < 60 → 0 ≤ x / 10 < 10 ∧ 0 ≤ x `mod` 10 < 10) as Hdig.
  { intros x Hx. split; [|apply Z.mod_pos_bound; lia].
    split; [apply Z.div_pos; lia|apply Z.div_lt_upper_bound; lia]. }
  destruct (Hdig n Hn) as [? ?], (Hdig m Hm) as [? ?].
  apply pretty_N_char_inj in H1; [|lia..].
  apply pretty_N_char_inj in H2; [|lia..].
  rewrite (Z.div_mod n 10), (Z.div_mod m 10) by lia.
  apply Z2N.inj in H1; [|lia..]. apply Z2N.inj in H2; [|lia..].
  by rewrite H1, H2.
Qed.
End Formato.

(** X9: whatever the integer duration, negative ones included, the text of
    a duration is the decimal notation of the minutes (rounded down), a
    colon, and exactly two digits for the seconds, the tens first. *)
Theorem formato_duracion_forma (d : Z) :
  formato_duracion d =
    pretty (d / 60) +:+ ":" +:+
    String (pretty_N_char (Z.to_N ((d `mod` 60) / 10)))
      (String (pretty_N_char (Z.to_N ((d `mod` 60) `mod` 10))) "").
Proof.
  unfold formato_duracion. cbn zeta.
  by rewrite dos_digitos_60 by (apply Z.mod_pos_bound; lia).
Qed.

(** X10: two different durations never have the same text. *)
Theorem formato_duracion_distingue (d1 d2 : Z) :
  d1 ≠ d2 → formato_duracion d1 ≠ formato_duracion d2.
Proof.
  intros Hne Heq. apply Hne. unfold formato_duracion in Heq. cbn zeta in Heq.
  pose proof (Z.mod_pos_bound d1 60 ltac:(lia)) as H1.
  pose proof (Z.mod_pos_bound d2 60 ltac:(lia)) as H2.
  apply string_app_inj_r in Heq as [Hmin Hseg].
  - apply (inj pretty) in Hmin.
    apply string_app_inj_r in Hseg as [_ Hseg]; [|by rewrite !dos_digitos_60].
    apply dos_digitos_60_inj in Hseg; [|done..].
    rewrite (Z.div_mod d1 60), (Z.div_mod d2 60) by lia. lia.
  - rewrite !string_app_length, !dos_digitos_60 by done. done.
Qed.

Lemma formato_duracion_distingue_witness :
  formato_duracion 125 ≠ formato_duracion 65.
Proof. apply (formato_duracion_distingue 125 65). lia. Defined.

(** X11: the text of a node is its title, [" - "], its artist and, in
    parentheses, the text of its duration; it depends on nothing else, so
    nodes that differ only in path or links read the same, and nodes with
    the same title and artist but different durations read differently. *)
Theorem str_distingue_duracion (n m : NodoCancion) :
  titulo n = titulo m → artista n = artista m →
  (NodoCancion__str__ n = NodoCancion__str__ m ↔ duracion n = duracion m).
Proof.
  intros Ht Ha. unfold NodoCancion__str__. cbn zeta. rewrite Ht, Ha. split.
  - intros Heq. do 4 apply (inj (String.app _)) in Heq.
    apply string_app_inj_r in Heq as [Heq _]; [|done].
    destruct (decide (duracion n = duracion m)) as [|Hne]; [done|].
    by destruct (formato_duracion_distingue _ _ Hne).
  - by intros ->.
Qed.

Lemma str_distingue_duracion_witness :
  NodoCancion__str__ (mkNodo "A" "x" 125 "a.mp3" (Some 0%nat) (Some 1%nat))
  = NodoCancion__str__ (mkNodo "A" "x" 65 "b.mp3" None None)
  ↔ 125 = 65.
Proof.
  apply (str_distingue_duracion
           (mkNodo "A" "x" 125 "a.mp3" (Some 0%nat) (Some 1%nat))
           (mkNodo "A" "x" 65 "b.mp3" None None)); reflexivity.
Defined.

(** The durations 125, 200 and 61 as the table shows them. *)
Example formato_ejemplos :
  formato_duracion 125 = "2:05" ∧ formato_duracion 200 = "3:20" ∧
  formato_duracion 61 = "1:01" ∧ formato_duracion 0 = "0:00" ∧
  NodoCancion__str__ (mkNodo "A" "x" 125 "a.mp3" None None) = "A - x (2:05)".
Proof. repeat split; reflexivity. Qed.

(** * ui/playlist_widget.py *)

Section Widget.
Implicit Types (w : PlaylistWidget) (s : estado) (l : list ref) (x c : ref).
Local Open Scope nat_scope.

Lemma bindW_ok {A B} (m : W A) (k : A → W B) w a w' :
  m w = Ok (a, w') → bindW m k w = k a w'.
Proof. unfold bindW. by intros ->. Qed.

Lemma en_lista_ok {A} (m : M A) w a s' :
  m (lista_reproduccion w) = Ok (a, s') →
  en_lista m w = Ok (a, mkWidget s' (playlist_model w) (emitidas w)).
Proof. unfold en_lista. by intros ->. Qed.

Lemma con_actual_mismo s (v : option ref) : actual s = v → con_actual v s = s.
Proof. intros <-. by destruct s. Qed.

Lemma anillo_con_actual s l k r x :
  anillo s l k → l !! r = Some x → anillo (con_actual (Some x) s) l r.
Proof.
  intros Hs Hr. destruct Hs. split; cbn [con_actual objetos actual primero tamanio];
    try done.
  left. by eapply lookup_lt_Some.
Qed.

(** The search loop stops on any node of the ring, within as many tests
    as there are nodes. *)
Lemma avanzar_hasta_anillo fuel s l k r x :
  anillo s l k → l !! r = Some x → length l ≤ fuel →
  avanzar_hasta fuel (Some x) s = Ok (tt, con_actual (Some x) s).
Proof.
  intros Hs Hr Hfuel.
  pose proof (lookup_lt_Some _ _ _ Hr) as Hrlt.
  assert (l ≠ []) as Hl by (intros ->; simpl in *; lia).
  pose proof (anillo_no_vacio s l k Hs Hl) as Hk.
  assert ((if decide (k ≤ r) then r - k else r + length l - k) < fuel) as Hd
    by (case_decide; lia).
  clear Hfuel. revert s k Hs Hk Hd.
  induction fuel as [|fuel IH]; intros s k Hs Hk Hd; [lia|].
  cbn [avanzar_hasta]. unfold obtener_cancion_actual.
  rewrite (bind_ok leer_actual _ s (actual s) s eq_refl).
  destruct (lookup_lt_is_Some_2 l k Hk) as [c Hc].
  pose proof (nodup_pos l k r c x (an_nodup _ _ _ Hs) Hc Hr) as Hpos.
  rewrite (an_actual _ _ _ Hs), Hc.
  destruct (decide (c = x)) as [->|Hne].
  - rewrite bool_decide_eq_false_2 by (intros H; by apply H).
    unfold ret. rewrite con_actual_mismo; [done|].
    by rewrite (an_actual _ _ _ Hs).
  - rewrite bool_decide_eq_true_2 by congruence.
    destruct (anillo_siguiente s l k Hs Hl) as [Hsi Hs1].
    rewrite (bind_ok _ _ _ _ _ Hsi).
    rewrite (IH _ (nxt (length l) k) Hs1).
    + done.
    + by apply nxt_lt.
    + assert (k ≠ r) by tauto. unfold nxt. repeat case_decide; lia.
Qed.

(** [_update_view] on a ring: the table lists the ring, and the
    highlighted node is the cursor unless there is none. *)
Lemma update_view_anillo fuel w l k :
  anillo (lista_reproduccion w) l k → length l ≤ fuel →
  _update_view fuel w =
    Ok (tt, mkWidget (lista_reproduccion w)
              (mkModelo (Some <$> l)
                 (match actual (lista_reproduccion w) with
                  | Some c => Some c
                  | None => cancion_actual (playlist_model w)
                  end))
              (emitidas w)).
Proof.
  intros Hs Hfuel. unfold _update_view.
  rewrite (bindW_ok _ _ _ _ _ (en_lista_ok _ w _ _ (todas_anillo _ l k fuel Hs Hfuel))).
  unfold bindW at 1. cbn [update_canciones].
  unfold bindW, en_lista, obtener_cancion_actual, leer_actual.
  cbn [lista_reproduccion playlist_model emitidas canciones cancion_actual].
  destruct w as [s [cs ca] em]. cbn in *.
  by destruct (actual s).
Qed.
End Widget.

Section Quitar.
Implicit Types (w : PlaylistWidget) (s : estado) (l : list ref).
Local Open Scope nat_scope.

(** The two cases of [eliminar_cancion_actual] on a non-empty ring, in one. *)
Lemma anillo_eliminar s l k :
  anillo s l k → l ≠ [] →
  ∃ c s1 k1,
    l !! k = Some c ∧
    eliminar_cancion_actual s = Ok (Some c, s1) ∧
    anillo s1 (delete k l) k1 ∧
    actual s1 = (if decide (length l = 1) then None else l !! nxt (length l) k).
Proof.
  intros Hs Hl. destruct (decide (length l = 1)) as [Hn|Hn].
  - destruct (anillo_eliminar_unico s l k Hs Hn) as (c & -> & Hc & Hel & Hs').
    assert (k = 0) as ->.
    { pose proof (anillo_no_vacio s [c] k Hs Hl) as H. simpl in H. lia. }
    exists c, (mkEstado (objetos s) None None (tamanio s - 1)), 0.
    split; [done|]. split; [done|]. split; [done|]. done.
  - assert (2 ≤ length l) as Hn2 by (destruct l as [|? [|? ?]]; simpl in *; done || lia).
    destruct (anillo_eliminar_varios s l k Hs Hn2) as
      (c & pv & nx & Hc & _ & Hnx & _ & _ & Hel & Hs').
    eexists c, _, _. split; [done|]. split; [exact Hel|]. split; [exact Hs'|].
    by rewrite Hnx.
Qed.

Lemma quitar_fila_anillo fuel row rest w l k x :
  anillo (lista_reproduccion w) l k → l !! row = Some x → length l ≤ fuel →
  ∃ s' k',
    _on_remove_clicked fuel (row :: rest) w =
      Ok (tt, mkWidget s'
                (mkModelo (Some <$> delete row l)
                   (match actual s' with
                    | Some c => Some c
                    | None => cancion_actual (playlist_model w)
                    end))
                (emitidas w ++ [song_removed (Some x)])) ∧
    anillo s' (delete row l) k' ∧
    (row ≠ k → actual s' = actual (lista_reproduccion w)) ∧
    (row = k → actual s' =
       if decide (length l = 1) then None else l !! nxt (length l) k).
Proof.
  destruct w as [s mo em]. cbn [lista_reproduccion playlist_model emitidas].
  intros Hs Hrow Hfuel.
  pose proof (lookup_lt_Some _ _ _ Hrow) as Hrowlt.
  assert (l ≠ []) as Hl by (intros ->; simpl in *; lia).
  pose proof (anillo_no_vacio s l k Hs Hl) as Hk.
  destruct (lookup_lt_is_Some_2 l k Hk) as [c0 Hc0].
  pose proof (an_actual _ _ _ Hs) as Hact. rewrite Hc0 in Hact.
  pose proof (nodup_pos l row k x c0 (an_nodup _ _ _ Hs) Hrow Hc0) as Hpos.
  assert (tamanio s ≠ 0%Z) as Ht by by rewrite (anillo_tamanio_0 s l k Hs).
  assert (∀ (P : resultado (unit * PlaylistWidget) → Prop),
    P ((let nodo_a_eliminar := Some x in
        (let! nodo_actual_temp := en_lista obtener_cancion_actual in
         let! a := en_lista obtener_cancion_actual in
         if bool_decide (nodo_a_eliminar = a) then
           let! nodo_eliminado := en_lista eliminar_cancion_actual in
           match nodo_eliminado with
           | Some _ => emitir (song_removed nodo_eliminado)
           | None => retW tt
           end
         else
           en_lista (avanzar_hasta fuel nodo_a_eliminar) >>
           let! nodo_eliminado := en_lista eliminar_cancion_actual in
           let! vacia := en_lista esta_vacia in
           (if negb vacia && bool_decide (nodo_actual_temp ≠ nodo_eliminado) then
              en_lista (avanzar_hasta fuel nodo_actual_temp)
            else retW tt) >>
           match nodo_eliminado with
           | Some _ => emitir (song_removed nodo_eliminado)
           | None => retW tt
           end) >> _update_view fuel)%W (mkWidget s mo em)) →
    P (_on_remove_clicked fuel (row :: rest) (mkWidget s mo em))) as Hpre.
  { intros P HP. unfold _on_remove_clicked. cbv beta iota.
    rewrite (bindW_ok _ _ _ _ _ (en_lista_ok _ (mkWidget s mo em) _ _ (esta_vacia_ok s))).
    cbn [lista_reproduccion playlist_model emitidas].
    rewrite (bool_decide_eq_false_2 _ Ht).
    rewrite (bindW_ok _ _ _ _ _ (en_lista_ok _ (mkWidget s mo em) _ _ (todas_anillo s l k fuel Hs Hfuel))).
    cbn [lista_reproduccion playlist_model emitidas].
    rewrite bool_decide_eq_true_2 by by rewrite length_fmap.
    rewrite list_lookup_fmap, Hrow. exact HP. }
  apply Hpre. clear Hpre. cbn zeta.
  destruct (decide (row = k)) as [->|Hne].
  - (* the selected row is the current song *)
    assert (x = c0) as -> by tauto.
    destruct (anillo_eliminar s l k Hs Hl) as (c & s1 & k1 & Hc & Hel & Hs1 & Hact1).
    assert (c = c0) as -> by congruence.
    exists s1, k1.
    erewrite (bindW_ok (bindW _ _)).
    2:{ unfold obtener_cancion_actual.
        rewrite (bindW_ok _ _ _ _ _ (en_lista_ok leer_actual (mkWidget s mo em) _ _ eq_refl)).
        rewrite (bindW_ok _ _ _ _ _ (en_lista_ok leer_actual (mkWidget s mo em) _ _ eq_refl)).
        cbn [lista_reproduccion playlist_model emitidas].
        rewrite Hact, bool_decide_eq_true_2 by done.
        rewrite (bindW_ok _ _ _ _ _ (en_lista_ok _ (mkWidget _ mo em) _ _ Hel)).
        reflexivity. }
    rewrite (update_view_anillo fuel _ (delete k l) k1).
    + cbn [lista_reproduccion playlist_model emitidas]. done.
    + done.
    + cbn [lista_reproduccion]. rewrite length_delete by eauto. lia.
  - (* another row: go there, remove, come back *)
    assert (x ≠ c0) as Hxc by tauto.
    pose proof (avanzar_hasta_anillo fuel s l k row x Hs Hrow Hfuel) as Hav.
    pose proof (anillo_con_actual s l k row x Hs Hrow) as Hsa.
    destruct (anillo_eliminar _ l row Hsa Hl) as (c & s1 & k1 & Hc & Hel & Hs1 & Hact1).
    assert (c = x) as -> by congruence.
    assert (c0 ∈ delete row l) as Hin
      by (apply (elem_of_delete_otro l row k c0 Hc0); congruence).
    apply list_elem_of_lookup in Hin as [k2 Hk2].
    assert (length (delete row l) ≤ fuel) as Hfuel1
      by (rewrite length_delete by eauto; lia).
    pose proof (avanzar_hasta_anillo fuel s1 _ k1 k2 c0 Hs1 Hk2 Hfuel1) as Hav1.
    pose proof (anillo_con_actual s1 _ k1 k2 c0 Hs1 Hk2) as Hs2.
    assert (tamanio s1 ≠ 0%Z) as Ht1.
    { rewrite (anillo_tamanio_0 s1 _ k1 Hs1). intros E. by rewrite E, lookup_nil in Hk2. }
    exists (con_actual (Some c0) s1), k2.
    erewrite (bindW_ok (bindW _ _)).
    2:{ unfold obtener_cancion_actual.
        rewrite (bindW_ok _ _ _ _ _ (en_lista_ok leer_actual (mkWidget s mo em) _ _ eq_refl)).
        rewrite (bindW_ok _ _ _ _ _ (en_lista_ok leer_actual (mkWidget s mo em) _ _ eq_refl)).
        cbn [lista_reproduccion playlist_model emitidas].
        rewrite Hact, bool_decide_eq_false_2 by congruence.
        rewrite (bindW_ok _ _ _ _ _ (en_lista_ok _ (mkWidget s mo em) _ _ Hav)).
        cbn [lista_reproduccion playlist_model emitidas].
        rewrite (bindW_ok _ _ _ _ _ (en_lista_ok _ (mkWidget _ mo em) _ _ Hel)).
        cbn [lista_reproduccion playlist_model emitidas].
        rewrite (bindW_ok _ _ _ _ _ (en_lista_ok _ (mkWidget s1 mo em) _ _ (esta_vacia_ok s1))).
        cbn [lista_reproduccion playlist_model emitidas].
        rewrite (bool_decide_eq_false_2 _ Ht1).
        rewrite bool_decide_eq_true_2 by congruence. cbn [negb andb].
        rewrite (bindW_ok _ _ _ _ _ (en_lista_ok _ (mkWidget s1 mo em) _ _ Hav1)).
        cbn [lista_reproduccion playlist_model emitidas].
        reflexivity. }
    rewrite (update_view_anillo fuel _ (delete row l) k2).
    + cbn [lista_reproduccion playlist_model emitidas con_actual actual].
      split; [done|]. split; [done|]. split; [by rewrite Hact|done].
    + done.
    + done.
Qed.
End Quitar.

(** X12: with a selected row that holds node [x] of the traversal [ls],
    [_on_remove_clicked] succeeds within a loop budget of the size: the
    playlist and the table then hold [ls] without that row, in the same
    order, [song_removed] is emitted once, for [x], and the cursor stays on
    the node it was on unless that node was [x], in which case it moves to
    the entry after it (the first one after the last, none when nothing is
    left).  The highlight of the table follows the cursor, and is left as
    it was when the playlist ends up empty. *)
Theorem quitar_fila (fuel fuel0 row : nat) (rest : list nat) (w : PlaylistWidget)
    (ls : list (option ref)) (s0 : estado) (x : option ref) :
  bien_formada (lista_reproduccion w) →
  obtener_todas_las_canciones fuel0 (lista_reproduccion w) = Ok (ls, s0) →
  ls !! row = Some x →
  (length ls ≤ fuel)%nat →
  ∃ w',
    _on_remove_clicked fuel (row :: rest) w = Ok (tt, w') ∧
    bien_formada (lista_reproduccion w') ∧
    (∀ fuel', (length ls - 1 ≤ fuel')%nat →
       obtener_todas_las_canciones fuel' (lista_reproduccion w')
       = Ok (delete row ls, lista_reproduccion w')) ∧
    canciones (playlist_model w') = delete row ls ∧
    emitidas w' = emitidas w ++ [song_removed x] ∧
    (x ≠ actual (lista_reproduccion w) →
       actual (lista_reproduccion w') = actual (lista_reproduccion w)) ∧
    (x = actual (lista_reproduccion w) →
       if decide (length ls = 1%nat) then actual (lista_reproduccion w') = None
       else ls !! (S row mod length ls)%nat = Some (actual (lista_reproduccion w'))) ∧
    cancion_actual (playlist_model w') =
      (if decide (length ls = 1%nat) then cancion_actual (playlist_model w)
       else actual (lista_reproduccion w')).
Proof.
  intros (l & k & Hs) Hrun Hrow Hfuel.
  destruct (todas_lista _ l k _ _ _ Hs Hrun) as [-> ->].
  rewrite list_lookup_fmap in Hrow.
  destruct (l !! row) as [y|] eqn:Hy; simplify_eq/=.
  rewrite length_fmap in *.
  pose proof (lookup_lt_Some _ _ _ Hy) as Hrowlt.
  assert (l ≠ []) as Hl by (intros ->; simpl in *; lia).
  pose proof (anillo_no_vacio _ l k Hs Hl) as Hk.
  destruct (lookup_lt_is_Some_2 l k Hk) as [c0 Hc0].
  pose proof (nodup_pos l row k y c0 (an_nodup _ _ _ Hs) Hy Hc0) as Hpos.
  pose proof (an_actual _ _ _ Hs) as Hact. rewrite Hc0 in Hact.
  destruct (quitar_fila_anillo fuel row rest w l k y Hs Hy Hfuel)
    as (s' & k' & Hq & Hs' & Hotro & Hmismo).
  eexists. split; [exact Hq|]. cbn [lista_reproduccion playlist_model emitidas
    canciones cancion_actual].
  assert (length (delete row l) = (length l - 1)%nat) as Hlen
    by (apply length_delete; eauto).
  assert (Some <$> delete row l = delete row (Some <$> l)) as Hdel.
  { apply list_eq. intros i.
    by rewrite list_lookup_fmap, !list_lookup_delete, list_lookup_fmap. }
  split; [by exists (delete row l), k'|].
  split; [|split; [done|split; [done|split; [|split]]]].
  - intros fuel' Hfuel'. rewrite <- Hdel.
    apply (todas_anillo s' _ k'); [done|lia].
  - rewrite Hact. intros Hne. rewrite Hotro; [done|]. intros ->. apply Hne.
    f_equal. tauto.
  - rewrite Hact. intros [= ->]. assert (row = k) as -> by tauto.
    rewrite Hmismo by done. destruct (decide (length l = 1%nat)) as [Hn|Hn]; [done|].
    rewrite list_lookup_fmap, <- nxt_mod by done.
    destruct (lookup_lt_is_Some_2 l (nxt (length l) k)) as [c Hc]; [by apply nxt_lt|].
    by rewrite Hc.
  - pose proof (an_actual _ _ _ Hs') as Hact'.
    pose proof (an_cursor _ _ _ Hs') as Hcur.
    destruct (decide (length l = 1%nat)) as [Hn|Hn].
    + assert (delete row l = []) as E by (apply length_zero_iff_nil; lia).
      rewrite E in Hact'. by rewrite Hact'.
    + destruct Hcur as [Hlt|[E _]]; [|apply (f_equal length) in E; simpl in E; lia].
      destruct (lookup_lt_is_Some_2 _ _ Hlt) as [c Hc]. by rewrite Hact', Hc.
Qed.

Lemma quitar_fila_witness :
  ∃ w',
    _on_remove_clicked 3 [1%nat] widget_abc = Ok (tt, w') ∧
    bien_formada (lista_reproduccion w') ∧
    (∀ fuel', (3 - 1 ≤ fuel')%nat →
       obtener_todas_las_canciones fuel' (lista_reproduccion w')
       = Ok (delete 1%nat [Some 0; Some 1; Some 2]%nat, lista_reproduccion w')) ∧
    canciones (playlist_model w') = delete 1%nat [Some 0; Some 1; Some 2]%nat ∧
    emitidas w' = emitidas widget_abc ++ [song_removed (Some 1%nat)] ∧
    (Some 1%nat ≠ actual (lista_reproduccion widget_abc) →
       actual (lista_reproduccion w') = actual (lista_reproduccion widget_abc)) ∧
    (Some 1%nat = actual (lista_reproduccion widget_abc) →
       if decide (3 = 1)%nat then actual (lista_reproduccion w') = None
       else [Some 0; Some 1; Some 2]%nat !! (2 mod 3)%nat
            = Some (actual (lista_reproduccion w'))) ∧
    cancion_actual (playlist_model w') =
      (if decide (3 = 1)%nat then cancion_actual (playlist_model widget_abc)
       else actual (lista_reproduccion w')).
Proof.
  apply (quitar_fila 3 3 1 [] widget_abc [Some 0; Some 1; Some 2]%nat lista_abc
           (Some 1%nat)).
  - exists [0; 1; 2]%nat, 0%nat. exact lista_abc_anillo.
  - reflexivity.
  - reflexivity.
  - simpl. lia.
Defined.



Section Seleccionar.
Implicit Types (w : PlaylistWidget) (s : estado) (l : list ref).
Local Open Scope nat_scope.

Lemma doble_clic_anillo fuel row w l k x :
  anillo (lista_reproduccion w) l k → l !! row = Some x → length l ≤ fuel →
  _on_table_double_clicked fuel row w =
    Ok (tt, mkWidget (con_actual (Some x) (lista_reproduccion w))
              (mkModelo (canciones (playlist_model w))
                 (if decide (row = k) then cancion_actual (playlist_model w)
                  else Some x))
              (emitidas w ++ [song_selected (Some x)])).
Proof.
  destruct w as [s [cs ca] em]. cbn [lista_reproduccion playlist_model emitidas
    canciones cancion_actual].
  intros Hs Hrow Hfuel.
  pose proof (lookup_lt_Some _ _ _ Hrow) as Hrowlt.
  assert (l ≠ []) as Hl by (intros ->; simpl in *; lia).
  pose proof (anillo_no_vacio s l k Hs Hl) as Hk.
  destruct (lookup_lt_is_Some_2 l k Hk) as [c0 Hc0].
  pose proof (an_actual _ _ _ Hs) as Hact. rewrite Hc0 in Hact.
  pose proof (nodup_pos l row k x c0 (an_nodup _ _ _ Hs) Hrow Hc0) as Hpos.
  assert (tamanio s ≠ 0%Z) as Ht by by rewrite (anillo_tamanio_0 s l k Hs).
  pose proof (avanzar_hasta_anillo fuel s l k row x Hs Hrow Hfuel) as Hav.
  set (mo := mkModelo cs ca).
  unfold _on_table_double_clicked.
  rewrite (bindW_ok _ _ _ _ _ (en_lista_ok _ (mkWidget s mo em) _ _ (esta_vacia_ok s))).
  cbn [lista_reproduccion playlist_model emitidas].
  rewrite (bool_decide_eq_false_2 _ Ht).
  rewrite (bindW_ok _ _ _ _ _
             (en_lista_ok _ (mkWidget s mo em) _ _ (todas_anillo s l k fuel Hs Hfuel))).
  cbn [lista_reproduccion playlist_model emitidas].
  rewrite bool_decide_eq_true_2 by by rewrite length_fmap.
  rewrite list_lookup_fmap, Hrow.
  cbn [fmap option_fmap option_map default from_option id]. cbn zeta. unfold id.
  unfold obtener_cancion_actual.
  rewrite (bindW_ok _ _ _ _ _ (en_lista_ok leer_actual (mkWidget s mo em) _ _ eq_refl)).
  cbn [lista_reproduccion playlist_model emitidas]. rewrite Hact.
  destruct (decide (row = k)) as [->|Hne].
  - assert (x = c0) as -> by tauto.
    rewrite bool_decide_eq_false_2 by (intros H; by apply H).
    rewrite (bindW_ok _ _ _ _ _ (en_lista_ok leer_actual (mkWidget s mo em) _ _ eq_refl)).
    cbn [lista_reproduccion playlist_model emitidas emitir]. rewrite Hact.
    by rewrite (con_actual_mismo s (Some c0) Hact).
  - assert (x ≠ c0) as Hxc by tauto.
    rewrite bool_decide_eq_true_2 by congruence.
    rewrite (bindW_ok _ _ _ _ _ (en_lista_ok leer_actual (mkWidget s mo em) _ _ eq_refl)).
    cbn [lista_reproduccion playlist_model emitidas]. rewrite Hact.
    rewrite (bindW_ok _ _ _ _ _ (en_lista_ok _ (mkWidget s mo em) _ _ Hav)).
    cbn [lista_reproduccion playlist_model emitidas].
    unfold bindW at 1. cbn [set_cancion_actual lista_reproduccion playlist_model
      emitidas canciones cancion_actual mo].
    unfold bindW, en_lista, leer_actual, emitir.
    cbn [lista_reproduccion playlist_model emitidas con_actual actual]. done.
Qed.

End Seleccionar.

(** X14: a double click on the row that holds node [x] of the traversal
    [ls] puts the cursor on [x] and changes nothing else in the playlist,
    emits [song_selected] once, for [x], and moves the highlight of the
    table to [x] when the cursor was elsewhere. *)
Theorem doble_clic_selecciona (fuel fuel0 row : nat) (w : PlaylistWidget)
    (ls : list (option ref)) (s0 : estado) (x : option ref) :
  bien_formada (lista_reproduccion w) →
  obtener_todas_las_canciones fuel0 (lista_reproduccion w) = Ok (ls, s0) →
  ls !! row = Some x →
  (length ls ≤ fuel)%nat →
  ∃ w',
    _on_table_double_clicked fuel row w = Ok (tt, w') ∧
    lista_reproduccion w' = con_actual x (lista_reproduccion w) ∧
    emitidas w' = emitidas w ++ [song_selected x] ∧
    canciones (playlist_model w') = canciones (playlist_model w) ∧
    cancion_actual (playlist_model w') =
      (if decide (x = actual (lista_reproduccion w))
       then cancion_actual (playlist_model w) else x).
Proof.
  intros (l & k & Hs) Hrun Hrow Hfuel.
  destruct (todas_lista _ l k _ _ _ Hs Hrun) as [-> ->].
  rewrite list_lookup_fmap in Hrow.
  destruct (l !! row) as [y|] eqn:Hy; simplify_eq/=.
  rewrite length_fmap in Hfuel.
  pose proof (lookup_lt_Some _ _ _ Hy) as Hrowlt.
  assert (l ≠ []) as Hl by (intros ->; simpl in *; lia).
  pose proof (anillo_no_vacio _ l k Hs Hl) as Hk.
  destruct (lookup_lt_is_Some_2 l k Hk) as [c0 Hc0].
  pose proof (nodup_pos l row k y c0 (an_nodup _ _ _ Hs) Hy Hc0) as Hpos.
  pose proof (an_actual _ _ _ Hs) as Hact. rewrite Hc0 in Hact.
  eexists. split; [by apply (doble_clic_anillo fuel row w l k y)|].
  cbn [lista_reproduccion playlist_model emitidas canciones cancion_actual].
  do 3 (split; [done|]). rewrite Hact.
  destruct (decide (row = k)) as [->|Hne].
  - rewrite decide_True; [done|]. f_equal. tauto.
  - rewrite decide_False; [done|]. intros [= ->]. tauto.
Qed.

Lemma doble_clic_selecciona_witness :
  ∃ w',
    _on_table_double_clicked 3 2 widget_abc = Ok (tt, w') ∧
    lista_reproduccion w' = con_actual (Some 2%nat) (lista_reproduccion widget_abc) ∧
    emitidas w' = emitidas widget_abc ++ [song_selected (Some 2%nat)] ∧
    canciones (playlist_model w') = canciones (playlist_model widget_abc) ∧
    cancion_actual (playlist_model w') =
      (if decide (Some 2%nat = actual (lista_reproduccion widget_abc))
       then cancion_actual (playlist_model widget_abc) else Some 2%nat).
Proof.
  apply (doble_clic_selecciona 3 3 2 widget_abc [Some 0; Some 1; Some 2]%nat
           lista_abc (Some 2%nat)).
  - exists [0; 1; 2]%nat, 0%nat. exact lista_abc_anillo.
  - reflexivity.
  - reflexivity.
  - simpl. lia.
Defined.



(** X16: a double click on a row beyond the last one, or on an empty
    playlist, changes nothing at all and emits nothing. *)
Theorem doble_clic_sin_efecto (fuel row : nat) (w : PlaylistWidget) :
  bien_formada (lista_reproduccion w) →
  (Z.to_nat (tamanio (lista_reproduccion w)) ≤ fuel)%nat →
  (Z.to_nat (tamanio (lista_reproduccion w)) ≤ row)%nat →
  _on_table_double_clicked fuel row w = Ok (tt, w).
Proof.
  intros (l & k & Hs) Hfuel Hrow.
  rewrite (an_tamanio _ _ _ Hs), Nat2Z.id in *.
  destruct w as [s mo em]. cbn [lista_reproduccion playlist_model emitidas] in *.
  unfold _on_table_double_clicked.
  rewrite (bindW_ok _ _ _ _ _ (en_lista_ok _ (mkWidget s mo em) _ _ (esta_vacia_ok s))).
  cbn [lista_reproduccion playlist_model emitidas].
  case_bool_decide as Ht; [done|].
  rewrite (bindW_ok _ _ _ _ _
             (en_lista_ok _ (mkWidget s mo em) _ _ (todas_anillo s l k fuel Hs Hfuel))).
  cbn [lista_reproduccion playlist_model emitidas].
  by rewrite bool_decide_eq_false_2 by (rewrite length_fmap; lia).
Qed.

Lemma doble_clic_sin_efecto_witness :
  _on_table_double_clicked 3 3 widget_abc = Ok (tt, widget_abc).
Proof.
  apply (doble_clic_sin_efecto 3 3 widget_abc).
  - exists [0; 1; 2]%nat, 0%nat. exact lista_abc_anillo.
  - vm_compute. lia.
  - vm_compute. lia.
Defined.

Section Tabla.
Implicit Types (w : PlaylistWidget) (s : estado) (l : list ref).
Local Open Scope nat_scope.

(** The row of a node in a table that lists a ring. *)
Lemma data_fila h l (ca : option ref) row r (column : Z) (role : rol) :
  l !! row = Some r →
  data h (mkModelo (Some <$> l) ca) true (Z.of_nat row) column role =
    let es_actual := bool_decide (ca ≠ None) && bool_decide (Some r = ca) in
    let atributo (f : NodoCancion → string) : resultado dato :=
      match h !! r with
      | None => Falla ReferenciaInvalida
      | Some n => Ok (DTexto (f n))
      end in
    if bool_decide (role = DisplayRole) then
      if bool_decide (column = 0%Z) then atributo titulo
      else if bool_decide (column = 1%Z) then atributo artista
      else if bool_decide (column = 2%Z)
           then atributo (λ n, formato_duracion (duracion n))
      else Ok DNone
    else if bool_decide (role = TextAlignmentRole) then
      if bool_decide (column = 2%Z) then Ok (DAlineacion true)
      else Ok (DAlineacion false)
    else if bool_decide (role = FontRole) then Ok (DFuente 10 es_actual)
    else if bool_decide (role = BackgroundRole) && es_actual then
      Ok (DColor 42 130 218 (Some 100%Z))
    else if bool_decide (role = ForegroundRole) && es_actual then
      Ok (DColor 255 255 255 None)
    else Ok DNone.
Proof.
  intros Hr. pose proof (lookup_lt_Some _ _ _ Hr) as Hlt.
  unfold data. cbn [canciones cancion_actual negb orb].
  rewrite bool_decide_eq_true_2 by (rewrite length_fmap; lia).
  cbn [negb]. rewrite Nat2Z.id, list_lookup_fmap, Hr.
  reflexivity.
Qed.
End Tabla.

(** X17: after [_update_view] on a well-formed playlist, each row of the
    table shows, in columns 0, 1 and 2, the title, the artist and the
    duration text of the node at that position of the traversal. *)
Theorem tabla_muestra_canciones (fuel fuel0 row : nat) (w : PlaylistWidget)
    (ls : list (option ref)) (s0 : estado) (x : option ref) :
  bien_formada (lista_reproduccion w) →
  obtener_todas_las_canciones fuel0 (lista_reproduccion w) = Ok (ls, s0) →
  ls !! row = Some x →
  (length ls ≤ fuel)%nat →
  ∃ w' r n,
    _update_view fuel w = Ok (tt, w') ∧
    x = Some r ∧ objetos (lista_reproduccion w) !! r = Some n ∧
    let h := objetos (lista_reproduccion w') in
    let m := playlist_model w' in
    data h m true (Z.of_nat row) 0 DisplayRole = Ok (DTexto (titulo n)) ∧
    data h m true (Z.of_nat row) 1 DisplayRole = Ok (DTexto (artista n)) ∧
    data h m true (Z.of_nat row) 2 DisplayRole
      = Ok (DTexto (formato_duracion (duracion n))).
Proof.
  intros (l & k & Hs) Hrun Hrow Hfuel.
  destruct (todas_lista _ l k _ _ _ Hs Hrun) as [-> ->].
  rewrite list_lookup_fmap in Hrow.
  destruct (l !! row) as [r|] eqn:Hr; simplify_eq/=.
  rewrite length_fmap in Hfuel.
  pose proof (anillo_ref_lt _ _ _ _ _ Hs Hr) as Hrlt.
  destruct (lookup_lt_is_Some_2 _ _ Hrlt) as [n Hn].
  eexists _, r, n. split; [by apply (update_view_anillo fuel w l k)|].
  split; [done|]. split; [done|].
  cbn [lista_reproduccion playlist_model].
  rewrite !(data_fila _ l _ row r) by done. cbn zeta.
  rewrite Hn. done.
Qed.

Lemma tabla_muestra_canciones_witness :
  ∃ w' r n,
    _update_view 3 widget_abc = Ok (tt, w') ∧
    Some 2%nat = Some r ∧ objetos (lista_reproduccion widget_abc) !! r = Some n ∧
    let h := objetos (lista_reproduccion w') in
    let m := playlist_model w' in
    data h m true (Z.of_nat 2) 0 DisplayRole = Ok (DTexto (titulo n)) ∧
    data h m true (Z.of_nat 2) 1 DisplayRole = Ok (DTexto (artista n)) ∧
    data h m true (Z.of_nat 2) 2 DisplayRole
      = Ok (DTexto (formato_duracion (duracion n))).
Proof.
  apply (tabla_muestra_canciones 3 3 2 widget_abc [Some 0; Some 1; Some 2]%nat
           lista_abc (Some 2%nat)).
  - exists [0; 1; 2]%nat, 0%nat. exact lista_abc_anillo.
  - reflexivity.
  - reflexivity.
  - simpl. lia.
Defined.

(** X18: after [_update_view] on a well-formed playlist whose cursor is
    the [k]-th node of the traversal, the row of the cursor, and no other
    row, is shown in bold and with the highlight colours; nodes are told
    apart by identity, so a row with the same track data as the cursor's is
    not highlighted. *)
Theorem tabla_resalta_cursor (fuel fuel0 k row : nat) (w : PlaylistWidget)
    (ls : list (option ref)) (s0 : estado) (column : Z) :
  bien_formada (lista_reproduccion w) →
  obtener_todas_las_canciones fuel0 (lista_reproduccion w) = Ok (ls, s0) →
  ls !! k = Some (actual (lista_reproduccion w)) →
  (row < length ls)%nat →
  (length ls ≤ fuel)%nat →
  ∃ w',
    _update_view fuel w = Ok (tt, w') ∧
    let h := objetos (lista_reproduccion w') in
    let m := playlist_model w' in
    data h m true (Z.of_nat row) column FontRole
      = Ok (DFuente 10 (bool_decide (row = k))) ∧
    data h m true (Z.of_nat row) column BackgroundRole
      = Ok (if bool_decide (row = k) then DColor 42 130 218 (Some 100) else DNone) ∧
    data h m true (Z.of_nat row) column ForegroundRole
      = Ok (if bool_decide (row = k) then DColor 255 255 255 None else DNone).
Proof.
  intros (l & k0 & Hs) Hrun Hk Hrow Hfuel.
  destruct (todas_lista _ l k0 _ _ _ Hs Hrun) as [-> ->].
  assert (l ≠ []) as Hl by (intros ->; by rewrite fmap_nil, lookup_nil in Hk).
  pose proof (posicion_cursor _ l k0 k Hs Hl Hk) as ->.
  pose proof (anillo_no_vacio _ l k0 Hs Hl) as Hk0.
  rewrite length_fmap in *.
  destruct (lookup_lt_is_Some_2 l k0 Hk0) as [c Hc].
  destruct (lookup_lt_is_Some_2 l row Hrow) as [r Hr].
  pose proof (nodup_pos l row k0 r c (an_nodup _ _ _ Hs) Hr Hc) as Hpos.
  pose proof (an_actual _ _ _ Hs) as Hact. rewrite Hc in Hact.
  eexists. split; [by apply (update_view_anillo fuel w l k0)|].
  cbn [lista_reproduccion playlist_model]. rewrite Hact.
  rewrite !(data_fila _ l _ row r) by done. cbn zeta.
  rewrite (bool_decide_eq_true_2 (Some c ≠ None)) by done. cbn [andb].
  destruct (decide (row = k0)) as [->|Hne].
  - assert (r = c) as -> by tauto.
    rewrite !(bool_decide_eq_true_2 (Some c = Some c)) by done.
    by rewrite !(bool_decide_eq_true_2 (k0 = k0)) by done.
  - assert (r ≠ c) as Hrc by tauto.
    rewrite !(bool_decide_eq_false_2 (Some r = Some c)) by congruence.
    by rewrite !(bool_decide_eq_false_2 (row = k0)) by done.
Qed.

Lemma tabla_resalta_cursor_witness :
  ∃ w',
    _update_view 2 (mkWidget lista_gemelas (mkModelo [] None) []) = Ok (tt, w') ∧
    let h := objetos (lista_reproduccion w') in
    let m := playlist_model w' in
    data h m true (Z.of_nat 1) 0 FontRole
      = Ok (DFuente 10 (bool_decide (1 = 0)%nat)) ∧
    data h m true (Z.of_nat 1) 0 BackgroundRole
      = Ok (if bool_decide (1 = 0)%nat then DColor 42 130 218 (Some 100) else DNone) ∧
    data h m true (Z.of_nat 1) 0 ForegroundRole
      = Ok (if bool_decide (1 = 0)%nat then DColor 255 255 255 None else DNone).
Proof.
  apply (tabla_resalta_cursor 2 2 0 1 (mkWidget lista_gemelas (mkModelo [] None) [])
           [Some 0; Some 1]%nat lista_gemelas 0).
  - exists [0; 1]%nat, 0%nat. exact lista_gemelas_anillo.
  - reflexivity.
  - reflexivity.
  - simpl. lia.
  - simpl. lia.
Defined.
